(** * L'Oreal product advisor chat: the turn logic of [script.js]

    A shallow embedding of the conversation store, the greeting and topic
    classifiers, the name pattern, the remote call and the three event
    handlers (form submit, edit name, clear conversation) of [script.js],
    followed by the properties the specification states about them.

    Modelling choices, each repeated at the place where it is made:
    - a JavaScript string is the list of its UTF-16 code units ([N]);
    - a value read back by [JSON.parse] is a [json] tree, and [undefined]
      is [None] in [val := option json];
    - the text stored under a [localStorage] key is seen through the way the
      script reads it (truthiness, [JSON.parse]), and a write to the storage
      succeeds;
    - the clock, the remote service and the globals on [window] are inputs
      of a turn; one turn runs from the submit event to the end of the
      handler, the awaited call included;
    - [console.error] and the time stamp shown under a bubble are left
      out. *)

From Stdlib Require Import List ZArith NArith Bool Lia Ascii String.
Import ListNotations.
Local Open Scope N_scope.
Set Warnings "-register-all".

(* ------------------------------------------------------------------ *)
(** ** Strings as sequences of UTF-16 code units *)

Definition jsstring := list N.

(** An ASCII literal of the script, as code units. *)
Definition lit (s : string) : jsstring :=
  map N_of_ascii (list_ascii_of_string s).

(** Code units of the non-ASCII characters that occur in the script's
    literals. *)
Definition e_acute : N := 233.        (* U+00E9 *)
Definition a_acute : N := 225.        (* U+00E1 *)
Definition em_dash : N := 8212.       (* U+2014 *)
Definition waving_hand : jsstring := [55357; 56395].  (* U+1F44B *)
Definition space : N := 32.

Fixpoint str_eqb (a b : jsstring) : bool :=
  match a, b with
  | [], [] => true
  | x :: a', y :: b' => (x =? y) && str_eqb a' b'
  | _, _ => false
  end.

(** [s.startsWith(p)] *)
Fixpoint startsWith (s p : jsstring) : bool :=
  match p, s with
  | [], _ => true
  | x :: p', y :: s' => (x =? y) && startsWith s' p'
  | _ :: _, [] => false
  end.

(** [s.includes(p)] *)
Fixpoint includes (s p : jsstring) : bool :=
  startsWith s p ||
  match s with
  | [] => false
  | _ :: s' => includes s' p
  end.

(** [s.endsWith(p)] *)
Fixpoint endsWith (s p : jsstring) : bool :=
  str_eqb s p ||
  match s with
  | [] => false
  | _ :: s' => endsWith s' p
  end.

(** [toLowerCase], code unit by code unit: the Basic Latin and Latin-1
    capitals are folded (U+00D7 is the multiplication sign); the case table
    beyond U+00FF is outside this model and those units are kept. *)
Definition lower_unit (c : N) : N :=
  if (65 <=? c) && (c <=? 90) then c + 32
  else if (192 <=? c) && (c <=? 222) && negb (c =? 215) then c + 32
  else c.

Definition toLowerCase (s : jsstring) : jsstring := map lower_unit s.

(** ECMAScript WhiteSpace and LineTerminator code points, which [trim] strips
    and [\s] matches. *)
Definition is_white_space (c : N) : bool :=
  existsb (N.eqb c)
    [9; 10; 11; 12; 13; 32; 160; 5760; 8232; 8233; 8239; 8287; 12288; 65279]
  || ((8192 <=? c) && (c <=? 8202)).

Fixpoint trimStart (s : jsstring) : jsstring :=
  match s with
  | c :: s' => if is_white_space c then trimStart s' else s
  | [] => []
  end.

Definition trimEnd (s : jsstring) : jsstring := rev (trimStart (rev s)).

Definition trim (s : jsstring) : jsstring := trimEnd (trimStart s).

(* ------------------------------------------------------------------ *)
(** ** Topic classifier *)

(** The argument of [isGreeting] and [isRelatedQuery]: [None] is an absent
    ([undefined] or [null]) text. [!text] holds for an absent text and for
    the empty string. *)
Definition not_text (text : option jsstring) : bool :=
  match text with
  | None => true
  | Some [] => true
  | Some (_ :: _) => false
  end.

Definition text_of (text : option jsstring) : jsstring :=
  match text with
  | Some s => s
  | None => []
  end.

Definition greetings : list jsstring :=
  map lit
    ["hi"; "hello"; "hey"; "bonjour"; "good morning"; "good afternoon";
     "good evening"; "greetings"]%string.

Definition greeting_hit (t g : jsstring) : bool :=
  str_eqb t g
  || startsWith t (g ++ lit " ")
  || includes t (lit " " ++ g ++ lit " ")
  || endsWith t (lit " " ++ g).

Definition isGreeting (text : option jsstring) : bool :=
  if not_text text then false
  else
    let t := toLowerCase (text_of text) in
    existsb (greeting_hit t) greetings.

Definition keywords : list jsstring :=
  [ lit "loreal";
    lit "l'or" ++ [e_acute] ++ lit "al";
    lit "lore" ++ [a_acute] ++ lit "l";
    lit "makeup"; lit "beauty"; lit "skincare"; lit "skin"; lit "hair";
    lit "haircare"; lit "fragrance"; lit "perfume"; lit "cosmetic";
    lit "product"; lit "routine"; lit "serum"; lit "moisturizer";
    lit "foundation"; lit "mascara"; lit "shampoo"; lit "conditioner";
    lit "styling"; lit "color"; lit "cream"; lit "cleanser"; lit "toner";
    lit "sunscreen"; lit "spf" ].

Definition isRelatedQuery (text : option jsstring) : bool :=
  if not_text text then false
  else
    let t := toLowerCase (text_of text) in
    existsb (includes t) keywords.

(* ------------------------------------------------------------------ *)
(** ** The self-introduction pattern

    [/\b(?:my name is|i'm|i am|this is)\s+([A-Za-z][A-Za-z'\- ]{0,40})/i],
    matched by [text.match]: the leftmost position where the pattern
    matches, the alternatives tried in order. *)

Definition is_ascii_letter (c : N) : bool :=
  ((65 <=? c) && (c <=? 90)) || ((97 <=? c) && (c <=? 122)).

(** [\w], which decides [\b]. *)
Definition is_word_char (c : N) : bool :=
  is_ascii_letter c || ((48 <=? c) && (c <=? 57)) || (c =? 95).

(** The class [[A-Za-z'\- ]]. *)
Definition is_name_char (c : N) : bool :=
  is_ascii_letter c || (c =? 39) || (c =? 45) || (c =? 32).

(** Canonicalisation under the [i] flag (no [u] flag): a code unit is
    compared through its upper case, and a unit from U+0080 on is never
    mapped into ASCII, so against the ASCII pattern only the ASCII letters
    fold. *)
Definition canonicalize (c : N) : N :=
  if (97 <=? c) && (c <=? 122) then c - 32 else c.

(** A literal of the pattern at the head of [s]; the rest of [s] after it. *)
Fixpoint match_literal (p s : jsstring) : option jsstring :=
  match p, s with
  | [], _ => Some s
  | x :: p', y :: s' =>
      if canonicalize x =? canonicalize y then match_literal p' s' else None
  | _ :: _, [] => None
  end.

(** [\s+] before a letter: greedy, and giving a white space back cannot help
    because the next item of the pattern is a letter. *)
Definition match_spaces (s : jsstring) : option jsstring :=
  match s with
  | c :: s' => if is_white_space c then Some (trimStart s') else None
  | [] => None
  end.

Fixpoint take_upto (n : nat) (f : N -> bool) (s : jsstring) : jsstring :=
  match n, s with
  | S n', c :: s' => if f c then c :: take_upto n' f s' else []
  | _, _ => []
  end.

(** The capture group [([A-Za-z][A-Za-z'\- ]{0,40})], greedy, last in the
    pattern. *)
Definition match_capture (s : jsstring) : option jsstring :=
  match s with
  | c :: s' =>
      if is_ascii_letter c then Some (c :: take_upto 40 is_name_char s')
      else None
  | [] => None
  end.

Definition intro_phrases : list jsstring :=
  map lit ["my name is"; "i'm"; "i am"; "this is"]%string.

Definition match_phrase (s p : jsstring) : option jsstring :=
  match match_literal p s with
  | Some r =>
      match match_spaces r with
      | Some r' => match_capture r'
      | None => None
      end
  | None => None
  end.

Fixpoint first_match (s : jsstring) (ps : list jsstring) : option jsstring :=
  match ps with
  | [] => None
  | p :: ps' =>
      match match_phrase s p with
      | Some cap => Some cap
      | None => first_match s ps'
      end
  end.

Definition head_is_word (s : jsstring) : bool :=
  match s with
  | c :: _ => is_word_char c
  | [] => false
  end.

(** The scan over start positions; [before] tells whether the code unit
    before the position is a word character, for [\b]. *)
Fixpoint scan (before : bool) (s : jsstring) : option jsstring :=
  let here :=
    if xorb before (head_is_word s) then first_match s intro_phrases
    else None in
  match here with
  | Some cap => Some cap
  | None =>
      match s with
      | [] => None
      | c :: s' => scan (is_word_char c) s'
      end
  end.

(** Capture group 1 of [text.match(...)], [None] when there is no match. *)
Definition nameMatch (text : jsstring) : option jsstring := scan false text.

(* ------------------------------------------------------------------ *)
(** ** JSON values and property reads *)

(** What [JSON.parse] yields. A number is observed by the script only
    through its truthiness; integers stand for numbers. The keys of an
    object are distinct. *)
Inductive json : Type :=
| JNull
| JBool (b : bool)
| JNum (z : Z)
| JStr (s : jsstring)
| JArr (items : list json)
| JObj (fields : list (jsstring * json)).

(** A JavaScript value of the script: [None] is [undefined]. *)
Definition val : Type := option json.

Definition truthy (v : val) : bool :=
  match v with
  | None => false
  | Some JNull => false
  | Some (JBool b) => b
  | Some (JNum z) => negb (z =? 0)%Z
  | Some (JStr []) => false
  | Some (JStr (_ :: _)) => true
  | Some (JArr _) => true
  | Some (JObj _) => true
  end.

(** The outcome of an expression that may throw. *)
Inductive res (A : Type) : Type :=
| Ok (a : A)
| Throw.
Arguments Ok {A} a.
Arguments Throw {A}.

Definition bind {A B : Type} (r : res A) (k : A -> res B) : res B :=
  match r with
  | Ok a => k a
  | Throw => Throw
  end.

Notation "x <- r ;; k" := (bind r (fun x => k))
  (at level 61, r at next level, right associativity).

Fixpoint lookup (k : jsstring) (fields : list (jsstring * json)) : val :=
  match fields with
  | [] => None
  | (k', v) :: rest => if str_eqb k k' then Some v else lookup k rest
  end.

(** [v.k] for the keys the script reads ([role], [content], [time],
    [choices], [message]), none of which a string, an array, a number or a
    boolean has: reading from [null] or [undefined] throws a TypeError. *)
Definition prop (v : val) (k : string) : res val :=
  match v with
  | None => Throw
  | Some JNull => Throw
  | Some (JObj fields) => Ok (lookup (lit k) fields)
  | Some _ => Ok None
  end.

(** [v[0]]: the first item of an array, the first code unit of a string,
    the property ["0"] of an object. *)
Definition index0 (v : val) : res val :=
  match v with
  | None => Throw
  | Some JNull => Throw
  | Some (JArr items) => Ok (hd_error items)
  | Some (JStr (c :: _)) => Ok (Some (JStr [c]))
  | Some (JObj fields) => Ok (lookup (lit "0") fields)
  | Some _ => Ok None
  end.

(* ------------------------------------------------------------------ *)
(** ** Messages and the persisted store *)

(** An element of [messages]: the script builds every one of them as an
    object literal with [role], [content] and, at most sites, [time]. A
    property that is missing or [undefined] is [None]. *)
Record message : Type := {
  role : val;
  content : val;
  time : val
}.

Definition str (s : jsstring) : val := Some (JStr s).

Definition apostrophe_oreal : jsstring := lit "L'Or" ++ [e_acute] ++ lit "al".

Definition system_prompt : jsstring :=
  lit "You are " ++ apostrophe_oreal ++
  lit "'s Smart Product Advisor. Answer questions only about " ++
  apostrophe_oreal ++
  lit " products, cosmetics, beauty, skincare, haircare, and fragrances. If a user's query is unrelated to these topics, politely refuse and say you can't help with that topic. Always respond kindly to greetings (for example: hello, hi, bonjour) " ++
  [em_dash] ++ lit " greet the user and invite them to ask about " ++
  apostrophe_oreal ++ lit " products or routines.".

Definition system_message : message :=
  {| role := str (lit "system"); content := str system_prompt; time := None |}.

(** [JSON.stringify] leaves out a property whose value is [undefined]. *)
Definition field (k : string) (v : val) : list (jsstring * json) :=
  match v with
  | Some j => [(lit k, j)]
  | None => []
  end.

Definition message_json (m : message) : json :=
  JObj (field "role" (role m) ++ field "content" (content m)
        ++ field "time" (time m)).

(** The string stored under a key that holds JSON, as the script reads it:
    the empty string (falsy), a text [JSON.parse] rejects, or the text of a
    JSON value. *)
Inductive jtext : Type :=
| EmptyText
| NotJson
| Json (v : json).

(** [localStorage], restricted to the three keys of the script; [None] is a
    key that is not set. Writes are taken to succeed. *)
Record storage : Type := {
  loreal_messages : option jtext;
  loreal_pastQuestions : option jtext;
  loreal_userName : option jsstring
}.

Definition empty_storage : storage :=
  {| loreal_messages := None; loreal_pastQuestions := None;
     loreal_userName := None |}.

(* ------------------------------------------------------------------ *)
(** ** The page: chat window, remote requests, the state of a session *)

Inductive ui_role : Type := Ai | User.

Definition ui_role_eqb (a b : ui_role) : bool :=
  match a, b with
  | Ai, Ai => true
  | User, User => true
  | _, _ => false
  end.

(** The text of a bubble is a template literal: a fixed label followed by
    the interpolated value, kept here as the value. The time stamp under the
    text is presentation only and is left out. *)
Record bubble : Type := {
  label : jsstring;
  shown : val
}.

(** A child of [chatWindow]: a block of class [msg <role>]. The block the
    submit handler creates as [loadingEl] is marked, so that
    [loadingEl.remove()] can find it. *)
Record node : Type := {
  node_role : ui_role;
  is_loading : bool;
  bubbles : list bubble
}.

(** A [fetch] call: the endpoint, the bearer credential if the call carries
    one, and the JSON body. *)
Record request : Type := {
  url : jsstring;
  bearer : val;
  body : json
}.

(** What the network does with a request: the [fetch] promise rejects, or a
    response arrives with a status, a body text, and the value [resp.json()]
    resolves to ([None] when the body is not JSON). *)
Inductive reply : Type :=
| Rejected
| Responded (status : Z) (text : jsstring) (parsed : option json).

Definition resp_ok (status : Z) : bool :=
  ((200 <=? status) && (status <=? 299))%Z.

(** The errors that reach the handler's [catch]. *)
Inductive error : Type :=
| NetworkError
| WorkerStatus (status : Z) (text : jsstring)
| OpenAIStatus (status : Z) (text : jsstring)
| BodySyntaxError
| NoTransportConfigured
| TypeError.

(** The inputs of one submit event. *)
Record turn : Type := {
  nowISO : jsstring;          (* [new Date().toISOString()] at the user message *)
  replyISO : jsstring;        (* the same at the assistant message *)
  WORKER_URL : val;           (* [window.WORKER_URL] *)
  OPENAI_API_KEY : val;       (* [window.OPENAI_API_KEY] *)
  network : request -> reply
}.

(** What a session does towards the remote service, in order: a call of
    [sendToApi] with its argument, a [fetch]. *)
Inductive effect : Type :=
| Called_sendToApi (messagesArray : list message)
| Fetched (req : request).

(** The module-level state of the script and the parts of the page it
    touches. [userNameDisplay] is [None] when the page has no such element. *)
Record world : Type := {
  messages : list message;
  userName : option jsstring;
  pastQuestions : list json;
  localStorage : storage;
  chatWindow : list node;
  userInput : jsstring;
  userNameDisplay : option jsstring;
  log : list effect
}.

Definition set_messages (l : list message) (w : world) : world :=
  {| messages := l; userName := userName w; pastQuestions := pastQuestions w;
     localStorage := localStorage w; chatWindow := chatWindow w;
     userInput := userInput w; userNameDisplay := userNameDisplay w;
     log := log w |}.

Definition set_userName (n : option jsstring) (w : world) : world :=
  {| messages := messages w; userName := n; pastQuestions := pastQuestions w;
     localStorage := localStorage w; chatWindow := chatWindow w;
     userInput := userInput w; userNameDisplay := userNameDisplay w;
     log := log w |}.

Definition set_pastQuestions (l : list json) (w : world) : world :=
  {| messages := messages w; userName := userName w; pastQuestions := l;
     localStorage := localStorage w; chatWindow := chatWindow w;
     userInput := userInput w; userNameDisplay := userNameDisplay w;
     log := log w |}.

Definition set_localStorage (s : storage) (w : world) : world :=
  {| messages := messages w; userName := userName w;
     pastQuestions := pastQuestions w; localStorage := s;
     chatWindow := chatWindow w; userInput := userInput w;
     userNameDisplay := userNameDisplay w; log := log w |}.

Definition set_chatWindow (c : list node) (w : world) : world :=
  {| messages := messages w; userName := userName w;
     pastQuestions := pastQuestions w; localStorage := localStorage w;
     chatWindow := c; userInput := userInput w;
     userNameDisplay := userNameDisplay w; log := log w |}.

Definition set_userInput (s : jsstring) (w : world) : world :=
  {| messages := messages w; userName := userName w;
     pastQuestions := pastQuestions w; localStorage := localStorage w;
     chatWindow := chatWindow w; userInput := s;
     userNameDisplay := userNameDisplay w; log := log w |}.

Definition set_userNameDisplay (d : option jsstring) (w : world) : world :=
  {| messages := messages w; userName := userName w;
     pastQuestions := pastQuestions w; localStorage := localStorage w;
     chatWindow := chatWindow w; userInput := userInput w;
     userNameDisplay := d; log := log w |}.

Definition set_log (l : list effect) (w : world) : world :=
  {| messages := messages w; userName := userName w;
     pastQuestions := pastQuestions w; localStorage := localStorage w;
     chatWindow := chatWindow w; userInput := userInput w;
     userNameDisplay := userNameDisplay w; log := l |}.

(** [messages.push(m)] *)
Definition push (m : message) (w : world) : world :=
  set_messages (messages w ++ [m]) w.

(* ------------------------------------------------------------------ *)
(** ** Persistence helpers *)

Definition setItem_messages (t : jtext) (s : storage) : storage :=
  {| loreal_messages := Some t;
     loreal_pastQuestions := loreal_pastQuestions s;
     loreal_userName := loreal_userName s |}.

Definition setItem_pastQuestions (t : jtext) (s : storage) : storage :=
  {| loreal_messages := loreal_messages s;
     loreal_pastQuestions := Some t;
     loreal_userName := loreal_userName s |}.

Definition setItem_userName (n : jsstring) (s : storage) : storage :=
  {| loreal_messages := loreal_messages s;
     loreal_pastQuestions := loreal_pastQuestions s;
     loreal_userName := Some n |}.

Definition removeItem_messages (s : storage) : storage :=
  {| loreal_messages := None;
     loreal_pastQuestions := loreal_pastQuestions s;
     loreal_userName := loreal_userName s |}.

Definition removeItem_pastQuestions (s : storage) : storage :=
  {| loreal_messages := loreal_messages s;
     loreal_pastQuestions := None;
     loreal_userName := loreal_userName s |}.

Definition removeItem_userName (s : storage) : storage :=
  {| loreal_messages := loreal_messages s;
     loreal_pastQuestions := loreal_pastQuestions s;
     loreal_userName := None |}.

(** [messages.slice(1)] *)
Definition slice1 (l : list message) : list message := tl l.

(** The array [saveConversation] serialises under [loreal_messages]. *)
Definition snapshot (w : world) : list message := slice1 (messages w).

Definition saveConversation (w : world) : world :=
  let store := snapshot w in
  let s := setItem_messages (Json (JArr (map message_json store)))
             (localStorage w) in
  let s := setItem_pastQuestions (Json (JArr (pastQuestions w))) s in
  set_localStorage s w.

(** The object pushed for a restored entry [m]:
    [{ role: m.role, content: m.content, time: m.time || null }]. *)
Definition restored_copy (m : json) : res message :=
  r <- prop (Some m) "role" ;;
  c <- prop (Some m) "content" ;;
  t <- prop (Some m) "time" ;;
  Ok {| role := r; content := c;
        time := if truthy t then t else Some JNull |}.

(** [arr.forEach(m => messages.push(...))]: the pushes made before an entry
    throws stay in [messages]. *)
Fixpoint restore_entries (arr : list json) (msgs : list message)
  : list message * bool :=
  match arr with
  | [] => (msgs, true)
  | m :: rest =>
      match restored_copy m with
      | Ok c => restore_entries rest (msgs ++ [c])
      | Throw => (msgs, false)
      end
  end.

(** [restoreConversation()]: the state after the call and the returned
    boolean. *)
Definition restoreConversation (w : world) : world * bool :=
  match loreal_messages (localStorage w) with
  | None => (w, false)
  | Some EmptyText => (w, false)
  | Some NotJson => (w, false)
  | Some (Json (JArr ((_ :: _) as arr))) =>
      let '(msgs, ok) := restore_entries arr (messages w) in
      let w := set_messages msgs w in
      if ok then
        match loreal_pastQuestions (localStorage w) with
        | None => (w, true)
        | Some EmptyText => (w, true)
        | Some NotJson => (w, false)
        | Some (Json (JArr pqa)) =>
            (set_pastQuestions (pastQuestions w ++ pqa) w, true)
        | Some (Json _) => (w, true)
        end
      else (w, false)
  | Some (Json _) => (w, false)
  end.

(* ------------------------------------------------------------------ *)
(** ** Rendering *)

(** [renderMessage(role, text)]: the bubble joins the last block of the chat
    window when that block has the same role, else opens a new block. *)
Definition renderMessage (r : ui_role) (b : bubble) (cw : list node)
  : list node :=
  match rev cw with
  | last :: before =>
      if ui_role_eqb (node_role last) r then
        rev before ++
        [{| node_role := node_role last; is_loading := is_loading last;
            bubbles := bubbles last ++ [b] |}]
      else cw ++ [{| node_role := r; is_loading := false; bubbles := [b] |}]
  | [] => [{| node_role := r; is_loading := false; bubbles := [b] |}]
  end.

Definition advisor_label : jsstring := apostrophe_oreal ++ lit " Advisor: ".

Definition renderAssistantMessage (text : val) (w : world) : world :=
  set_chatWindow
    (renderMessage Ai {| label := advisor_label; shown := text |}
       (chatWindow w)) w.

Definition renderUserMessage (text : val) (w : world) : world :=
  set_chatWindow
    (renderMessage User {| label := lit " "; shown := text |}
       (chatWindow w)) w.

(** The placeholder bubble [L'Oreal Advisor: Thinking...]. *)
Definition loadingEl : node :=
  {| node_role := Ai; is_loading := true;
     bubbles := [{| label := advisor_label; shown := str (lit "Thinking...") |}] |}.

Definition show_loading (w : world) : world :=
  set_chatWindow (chatWindow w ++ [loadingEl]) w.

(** [loadingEl.remove()] *)
Definition remove_loading (w : world) : world :=
  set_chatWindow (filter (fun n => negb (is_loading n)) (chatWindow w)) w.

Definition welcome : jsstring :=
  waving_hand ++ lit " Bonjour " ++ [em_dash] ++ lit " I'm " ++
  apostrophe_oreal ++
  lit "'s Smart Product Advisor. Ask about products, routines, or personalized recommendations.".

(* ------------------------------------------------------------------ *)
(** ** The user name *)

(** [setUserName(name)]; [None] is [null]. *)
Definition setUserName (name : option jsstring) (w : world) : world :=
  let n :=
    match name with
    | Some ((_ :: _) as s) => Some (trim s)
    | _ => None
    end in
  let w := set_userName n w in
  match n with
  | Some ((_ :: _) as u) =>
      let w := set_localStorage (setItem_userName u (localStorage w)) w in
      set_userNameDisplay (option_map (fun _ => u) (userNameDisplay w)) w
  | _ =>
      let w := set_localStorage (removeItem_userName (localStorage w)) w in
      set_userNameDisplay
        (option_map (fun _ => lit "Guest") (userNameDisplay w)) w
  end.

(** The edit-name button; [answer] is what [prompt] returns, [None] when the
    dialog is cancelled. *)
Definition editName (answer : option jsstring) (w : world) : world :=
  match answer with
  | None => w
  | Some name =>
      let w := setUserName (Some name) w in
      match name, trim name with
      | _ :: _, _ :: _ =>
          let info :=
            lit "Nice to meet you, " ++ trim name ++ lit "! Ask me about " ++
            apostrophe_oreal ++ lit " products or routines." in
          let w := renderAssistantMessage (str info) w in
          push {| role := str (lit "assistant"); content := str info;
                  time := None |} w
      | _, _ => w
      end
  end.

(** The clear-conversation button. *)
Definition clearConversation (w : world) : world :=
  let w := set_chatWindow [] w in
  let w := set_localStorage (removeItem_messages (localStorage w)) w in
  let w := set_localStorage (removeItem_pastQuestions (localStorage w)) w in
  let w :=
    match messages w with
    | system :: _ => set_messages [system] w
    | [] => w
    end in
  let w := set_pastQuestions [] w in
  let w := setUserName None w in
  renderAssistantMessage (str welcome) w.

(** The module-level declarations, before any statement has run. *)
Definition initial (ls : storage) (display : option jsstring) : world :=
  {| messages := [system_message]; userName := None; pastQuestions := [];
     localStorage := ls; chatWindow := []; userInput := [];
     userNameDisplay := display; log := [] |}.

(** The script from its first line to its last, on a page whose storage is
    [ls]: the state in which the handlers wait for events. [display] is the
    text of the name element as the page has it. *)
Definition load (ls : storage) (display : option jsstring) : world :=
  let w := initial ls display in
  let w := fst (restoreConversation w) in
  let w := set_chatWindow [] w in
  let w := renderAssistantMessage (str welcome) w in
  match loreal_userName (localStorage w) with
  | Some ((_ :: _) as storedName) => setUserName (Some storedName) w
  | _ => w
  end.

(* ------------------------------------------------------------------ *)
(** ** The remote call *)

(** [getWorkerUrl()]: whatever [window.WORKER_URL] holds, the embedded
    address is returned. *)
Definition getWorkerUrl (env : turn) : jsstring :=
  lit "https://lorealchatbot.dilyosov.workers.dev/".

Definition messages_json (l : list message) : json :=
  JArr (map message_json l).

(** The branch of [sendToApi] that posts to the worker. *)
Definition via_worker (worker : jsstring) (env : turn)
    (messagesArray : list message) : list request * (error + json) :=
  let req :=
    {| url := worker; bearer := None;
       body := JObj [(lit "messages", messages_json messagesArray)] |} in
  ([req],
   match network env req with
   | Rejected => inl NetworkError
   | Responded status text parsed =>
       if negb (resp_ok status) then inl (WorkerStatus status text)
       else match parsed with
            | Some data => inr data
            | None => inl BodySyntaxError
            end
   end).

(** The branch that calls the provider with the key found on [window]. *)
Definition via_openai (apiKey : val) (env : turn)
    (messagesArray : list message) : list request * (error + json) :=
  let req :=
    {| url := lit "https://api.openai.com/v1/chat/completions";
       bearer := apiKey;
       body := JObj [(lit "model", JStr (lit "gpt-4o"));
                     (lit "messages", messages_json messagesArray);
                     (lit "max_tokens", JNum 300)] |} in
  ([req],
   match network env req with
   | Rejected => inl NetworkError
   | Responded status text parsed =>
       if negb (resp_ok status) then inl (OpenAIStatus status text)
       else match parsed with
            | Some data => inr data
            | None => inl BodySyntaxError
            end
   end).

(** [sendToApi(messagesArray)]: the requests it makes, and either the error
    it throws or the value it resolves to. *)
Definition sendToApi (env : turn) (messagesArray : list message)
  : list request * (error + json) :=
  let worker := getWorkerUrl env in
  if truthy (str worker) then via_worker worker env messagesArray
  else
    let apiKey := OPENAI_API_KEY env in
    if truthy apiKey then via_openai apiKey env messagesArray
    else ([], inl NoTransportConfigured).

(* ------------------------------------------------------------------ *)
(** ** The submit handler: one turn *)

Definition greet : jsstring :=
  lit "Bonjour! I'm " ++ apostrophe_oreal ++
  lit "'s Smart Product Advisor. How can I help you with " ++
  apostrophe_oreal ++ lit " products, routines, or recommendations?".

Definition refuse : jsstring :=
  lit "I'm here to help with " ++ apostrophe_oreal ++
  lit " products, routines and beauty topics " ++ [em_dash] ++
  lit " I can't assist with that. Please ask about skincare, makeup, haircare, or fragrances.".

Definition cfgMsg : jsstring :=
  lit "This demo is not configured to talk to the API. For production, set up a Cloudflare Worker and add the worker URL to a gitignored `secrets.local.js` (example: `window.WORKER_URL = 'https://your-worker.example.workers.dev'`)."
  ++ [10; 10] ++
  lit "For local testing only, you can create `secrets.local.js` with `window.OPENAI_API_KEY = 'sk-...';` (not recommended to commit).".

Definition errMsg : jsstring :=
  lit "Sorry " ++ [em_dash] ++
  lit " something went wrong. Please try again later.".

Definition no_response : jsstring := lit "(No response from API)".

(** [data && data.choices && data.choices[0] && data.choices[0].message
      ? data.choices[0].message.content : "(No response from API)"] *)
Definition assistantText (data : val) : res val :=
  if truthy data then
    choices <- prop data "choices" ;;
    if truthy choices then
      first <- index0 choices ;;
      if truthy first then
        message <- prop first "message" ;;
        if truthy message then prop message "content"
        else Ok (str no_response)
      else Ok (str no_response)
    else Ok (str no_response)
  else Ok (str no_response).

Definition user_message (text : jsstring) (env : turn) : message :=
  {| role := str (lit "user"); content := str text;
     time := str (nowISO env) |}.

Definition assistant_message (text : val) (env : turn) : message :=
  {| role := str (lit "assistant"); content := text;
     time := str (replyISO env) |}.

(** The three statements that end every branch but the [catch]:
    [renderAssistantMessage(text); messages.push({...}); saveConversation();] *)
Definition reply_with (text : val) (env : turn) (w : world) : world :=
  let w := renderAssistantMessage text w in
  let w := push (assistant_message text env) w in
  saveConversation w.

(** The [catch] block. *)
Definition on_error (w : world) : world :=
  let w := remove_loading w in
  let w := renderAssistantMessage (str errMsg) w in
  push {| role := str (lit "assistant"); content := str errMsg;
          time := None |} w.

(** From clearing the input field to [pastQuestions.push(text)]: the user
    message is rendered, pushed and saved, a self-introduced name is kept in
    [userName], the question is logged. *)
Definition record_input (text : jsstring) (env : turn) (w : world) : world :=
  let w := set_userInput [] w in
  let w := set_chatWindow [] w in
  let w := renderUserMessage (str text) w in
  let w := push (user_message text env) w in
  let w := saveConversation w in
  let w :=
    match nameMatch text with
    | Some captured => set_userName (Some (trim captured)) w
    | None => w
    end in
  set_pastQuestions (pastQuestions w ++ [JStr text]) w.

(** The [try] block and its [catch], entered with the placeholder shown. *)
Definition ask_remote (env : turn) (w : world) : world :=
  if negb (truthy (str (getWorkerUrl env)))
     && negb (truthy (OPENAI_API_KEY env))
  then
    let w := remove_loading w in
    reply_with (str cfgMsg) env w
  else
    let call := sendToApi env (messages w) in
    let w :=
      set_log (log w ++ Called_sendToApi (messages w)
                          :: map Fetched (fst call)) w in
    match snd call with
    | inl _ => on_error w
    | inr data =>
        let w := remove_loading w in
        match assistantText (Some data) with
        | Throw => on_error w
        | Ok text =>
            let w := remove_loading w in
            reply_with text env w
        end
    end.

Definition submit (env : turn) (w : world) : world :=
  let text := trim (userInput w) in
  if not_text (Some text) then w
  else
    let w := record_input text env w in
    if isGreeting (Some text) then reply_with (str greet) env w
    else if negb (isRelatedQuery (Some text)) then
      reply_with (str refuse) env w
    else
      let w := show_loading w in
      ask_remote env w.

(* ------------------------------------------------------------------ *)
(** ** Sessions *)

Inductive event : Type :=
| Typed (s : jsstring)
| Submitted (env : turn)
| NameEdited (answer : option jsstring)
| Cleared.

Definition step (w : world) (e : event) : world :=
  match e with
  | Typed s => set_userInput s w
  | Submitted env => submit env w
  | NameEdited a => editName a w
  | Cleared => clearConversation w
  end.

Definition run (w : world) (es : list event) : world := fold_left step es w.

(** The states of a session: the script loaded on some storage, then any
    sequence of events. *)
Inductive reachable : world -> Prop :=
| reach_load (ls : storage) (display : option jsstring) :
    reachable (load ls display)
| reach_step (w : world) (e : event) :
    reachable w -> reachable (step w e).

(* ------------------------------------------------------------------ *)
(** ** Sample sessions *)

(** A turn at fixed clock readings, no key on [window], and a network that
    gives the same reply to every request. *)
Definition turn_with (r : reply) : turn :=
  {| nowISO := lit "2024-05-01T10:00:00.000Z";
     replyISO := lit "2024-05-01T10:00:01.000Z";
     WORKER_URL := None; OPENAI_API_KEY := None;
     network := fun _ => r |}.

(** The page loaded on an empty storage, the name element showing Guest. *)
Definition fresh : world := load empty_storage (Some (lit "Guest")).

Definition typing (s : string) (w : world) : world :=
  set_userInput (lit s) w.

(** A reply with status 200 and a JSON body. *)
Definition ok_reply (data : json) : reply := Responded 200 [] (Some data).

(** A persisted snapshot whose only entry has no [role]. *)
Definition malformed_snapshot : list json :=
  [JObj [(lit "content", JStr (lit "hi"))]].

(** The script about to call [restoreConversation] on a storage that holds
    [arr] under the messages key. *)
Definition page_holding (arr : list json) : world :=
  initial {| loreal_messages := Some (Json (JArr arr));
             loreal_pastQuestions := None; loreal_userName := None |} None.

(** A session that has answered one greeting. *)
Definition after_hello : world :=
  run fresh [Typed (lit "Hello"); Submitted (turn_with Rejected)].

(** A response body whose first choice has a message without [content]. *)
Definition message_without_content : json :=
  JObj [(lit "choices", JArr [JObj [(lit "message", JObj [])]])].

(** A response body with a completion. *)
Definition completion (text : string) : json :=
  JObj [(lit "choices",
         JArr [JObj [(lit "message",
                      JObj [(lit "role", JStr (lit "assistant"));
                            (lit "content", JStr (lit text))])]])].

(** A reply with status 500. *)
Definition server_error : reply :=
  Responded 500 (lit "Internal Server Error") None.

(* ------------------------------------------------------------------ *)
(** ** Notions of the specification *)

(** A lexicon word [g] occurring in [t] as a whole token: exact match,
    leading token, interior token with a space on both sides, trailing
    token. *)
Inductive whole_token (g t : jsstring) : Prop :=
| exact_match : t = g -> whole_token g t
| leading_token (rest : jsstring) :
    t = g ++ [space] ++ rest -> whole_token g t
| interior_token (before after : jsstring) :
    t = before ++ [space] ++ g ++ [space] ++ after -> whole_token g t
| trailing_token (before : jsstring) :
    t = before ++ [space] ++ g -> whole_token g t.

(** An entry of a persisted snapshot that has both [role] and [content]. *)
Definition has_property (m : json) (k : string) : bool :=
  match m with
  | JObj fields =>
      match lookup (lit k) fields with
      | Some _ => true
      | None => false
      end
  | _ => false
  end.

Definition well_formed_entry (m : json) : bool :=
  has_property m "role" && has_property m "content".

(** The snapshot the specification expects back from a restore: the
    original sequence with the malformed entries removed. *)
Definition sanitized (arr : list json) : list json :=
  filter well_formed_entry arr.

(** The copy [restoreConversation] pushes for an entry that is not [null]:
    the three properties read off the entry, a falsy [time] replaced by
    [null]. *)
Definition read (m : json) (k : string) : val :=
  match m with
  | JObj fields => lookup (lit k) fields
  | _ => None
  end.

Definition shallow_copy (m : json) : message :=
  {| role := read m "role"; content := read m "content";
     time := if truthy (read m "time") then read m "time" else Some JNull |}.

(** A message as a restore gives it back: a falsy or missing [time] has
    become [null]. *)
Definition time_or_null (m : message) : message :=
  {| role := role m; content := content m;
     time := if truthy (time m) then time m else Some JNull |}.

(** A message that cannot be mistaken for the system message: it has
    another role, or it carries a [time]. *)
Definition later_message (m : message) : Prop :=
  role m <> str (lit "system") \/ time m <> None.

(** The conversation starts with the system message and has it nowhere
    else. *)
Definition system_first (w : world) : Prop :=
  exists rest,
    messages w = system_message :: rest /\ Forall later_message rest.

(** A message with one of the two roles of a chat. *)
Definition chat_role (m : message) : Prop :=
  role m = str (lit "user") \/ role m = str (lit "assistant").

(** [w'] has the messages of [w] followed by messages that satisfy [P]. *)
Definition appends (P : message -> Prop) (w w' : world) : Prop :=
  exists extra, messages w' = messages w ++ extra /\ Forall P extra.

(** The apology the [catch] block pushes, without a [time]. *)
Definition apology : message :=
  {| role := str (lit "assistant"); content := str errMsg; time := None |}.

(** The address of the worker. *)
Definition worker_address : jsstring :=
  lit "https://lorealchatbot.dilyosov.workers.dev/".

(** The storage a chain of sessions can leave behind, the first session
    started on an empty storage and each later one on what the one before
    left. *)
Inductive left_behind : storage -> Prop :=
| left_empty : left_behind empty_storage
| left_session (ls : storage) (display : option jsstring) (es : list event) :
    left_behind ls ->
    left_behind (localStorage (run (load ls display) es)).

(** The messages key is unset or holds the JSON of messages that all have a
    chat role. *)
Definition stored_chat (ls : storage) : Prop :=
  match loreal_messages ls with
  | None => True
  | Some (Json (JArr entries)) =>
      exists ms, entries = map message_json ms /\ Forall chat_role ms
  | Some _ => False
  end.

(** A session whose conversation, after the system message, and whose
    stored snapshot hold chat messages only. *)
Definition chat_world (w : world) : Prop :=
  (exists rest,
     messages w = system_message :: rest /\ Forall chat_role rest) /\
  stored_chat (localStorage w).

(** A string that [trim] leaves as it is: no white space at either end. *)
Definition trimmed (s : jsstring) : Prop :=
  trimStart s = s /\ trimStart (rev s) = rev s.

(** The request [sendToApi] posts for a conversation. *)
Definition worker_request (messagesArray : list message) : request :=
  {| url := worker_address; bearer := None;
     body := JObj [(lit "messages", messages_json messagesArray)] |}.

(** A remote effect that stays within the worker: a call of [sendToApi]
    whose argument starts with the system message, a [fetch] to the worker
    address without a credential. *)
Definition to_worker (e : effect) : Prop :=
  match e with
  | Called_sendToApi messagesArray =>
      hd_error messagesArray = Some system_message
  | Fetched req => url req = worker_address /\ bearer req = None
  end.

(** The bubbles of the chat window, in reading order. *)
Definition transcript (cw : list node) : list bubble :=
  List.concat (map bubbles cw).

(** No two neighbouring blocks of the chat window have the same role. *)
Fixpoint alternating (cw : list node) : Prop :=
  match cw with
  | a :: rest =>
      match rest with
      | b :: _ => node_role a <> node_role b
      | [] => True
      end /\ alternating rest
  | [] => True
  end.


(** The block [renderMessage] opens for a bubble. *)
Definition block (r : ui_role) (b : bubble) : node :=
  {| node_role := r; is_loading := false; bubbles := [b] |}.

(** The message the edit-name button pushes for a name. *)
Definition name_greeting (n : jsstring) : jsstring :=
  lit "Nice to meet you, " ++ n ++ lit "! Ask me about " ++
  apostrophe_oreal ++ lit " products or routines.".

(* ================================================================== *)
(** * Properties *)

(* ------------------------------------------------------------------ *)
(** ** String functions *)

Lemma str_eqb_eq (a b : jsstring) : str_eqb a b = true <-> a = b.
Proof.
  revert b; induction a as [|x a IH]; intros [|y b]; simpl;
    try (split; [discriminate | congruence]).
  - split; reflexivity.
  - rewrite andb_true_iff, N.eqb_eq, IH. split.
    + intros [-> ->]; reflexivity.
    + intros H; injection H; auto.
Qed.

Lemma str_eqb_refl (a : jsstring) : str_eqb a a = true.
Proof. apply str_eqb_eq; reflexivity. Qed.

Lemma startsWith_spec (s p : jsstring) :
  startsWith s p = true <-> exists rest, s = p ++ rest.
Proof.
  revert s; induction p as [|x p IH]; intros s; simpl.
  - split; [intros _; exists s; reflexivity | destruct s; reflexivity].
  - destruct s as [|y s]; simpl.
    + split; [discriminate | intros [rest H]; discriminate].
    + rewrite andb_true_iff, N.eqb_eq, IH. split.
      * intros [-> [rest ->]]. exists rest; reflexivity.
      * intros [rest H]. injection H as -> ->. split; eauto.
Qed.

Lemma includes_eq (s p : jsstring) :
  includes s p =
  startsWith s p || match s with [] => false | _ :: s' => includes s' p end.
Proof. destruct s; reflexivity. Qed.

Lemma endsWith_eq (s p : jsstring) :
  endsWith s p =
  str_eqb s p || match s with [] => false | _ :: s' => endsWith s' p end.
Proof. destruct s; reflexivity. Qed.

Lemma includes_spec (s p : jsstring) :
  includes s p = true <-> exists before after, s = before ++ p ++ after.
Proof.
  split.
  - induction s as [|c s IH]; rewrite includes_eq, orb_true_iff;
      intros [H|H]; try discriminate.
    + apply startsWith_spec in H as [rest H]. exists [], rest; exact H.
    + apply startsWith_spec in H as [rest H]. exists [], rest; exact H.
    + destruct (IH H) as (b & a & ->). exists (c :: b), a; reflexivity.
  - intros (before & after & ->).
    induction before as [|c before IH].
    + rewrite includes_eq.
      replace (startsWith ([] ++ p ++ after) p) with true; [reflexivity|].
      symmetry. apply startsWith_spec. exists after; reflexivity.
    + change (includes (c :: before ++ p ++ after) p = true).
      rewrite includes_eq, IH. apply orb_true_r.
Qed.

Lemma endsWith_spec (s p : jsstring) :
  endsWith s p = true <-> exists before, s = before ++ p.
Proof.
  split.
  - induction s as [|c s IH]; rewrite endsWith_eq, orb_true_iff;
      intros [H|H]; try discriminate.
    + apply str_eqb_eq in H. exists []; exact H.
    + apply str_eqb_eq in H. exists []; exact H.
    + destruct (IH H) as (b & ->). exists (c :: b); reflexivity.
  - intros (before & ->).
    induction before as [|c before IH].
    + rewrite endsWith_eq. simpl app. rewrite str_eqb_refl. reflexivity.
    + change (endsWith (c :: before ++ p) p = true).
      rewrite endsWith_eq, IH. apply orb_true_r.
Qed.

Lemma trimStart_blank (s : jsstring) :
  forallb is_white_space s = true -> trimStart s = [].
Proof.
  induction s as [|c s IH]; simpl; [reflexivity|].
  rewrite andb_true_iff. intros [-> H]. auto.
Qed.

Lemma trimStart_nil_blank (s : jsstring) :
  trimStart s = [] -> forallb is_white_space s = true.
Proof.
  induction s as [|c s IH]; simpl; [reflexivity|].
  destruct (is_white_space c); [auto | discriminate].
Qed.

(** [trim] yields the empty string exactly on the strings made of white
    space only (the empty string among them). *)
Lemma trim_nil_iff (s : jsstring) :
  trim s = [] <-> forallb is_white_space s = true.
Proof.
  unfold trim, trimEnd. split.
  - intros H. apply trimStart_nil_blank.
    destruct (trimStart s) as [|c r] eqn:E; [reflexivity|].
    exfalso.
    assert (Hc : is_white_space c = false).
    { clear H. revert E. induction s as [|d s IH]; simpl; [discriminate|].
      destruct (is_white_space d) eqn:Ed; [auto|].
      intros H; injection H as -> _; exact Ed. }
    assert (Hr : rev (trimStart (rev (c :: r))) = []) by exact H.
    apply (f_equal (@rev N)) in Hr. rewrite rev_involutive in Hr.
    simpl in Hr. apply trimStart_nil_blank in Hr.
    rewrite forallb_app in Hr. simpl in Hr. rewrite Hc in Hr.
    rewrite andb_false_r in Hr. discriminate.
  - intros H. rewrite (trimStart_blank _ H). reflexivity.
Qed.

(* ------------------------------------------------------------------ *)
(** ** The greeting classifier *)

Lemma greeting_hit_spec (t g : jsstring) :
  greeting_hit t g = true <-> whole_token g t.
Proof.
  unfold greeting_hit. change (lit " ") with [space].
  rewrite !orb_true_iff, str_eqb_eq, startsWith_spec, includes_spec,
    endsWith_spec.
  split.
  - intros [[[H | [rest H]] | (before & after & H)] | [before H]].
    + apply exact_match; exact H.
    + apply (leading_token g t rest). rewrite H, <- app_assoc; reflexivity.
    + apply (interior_token g t before after).
      rewrite H, <- !app_assoc; reflexivity.
    + apply (trailing_token g t before); exact H.
  - intros [H | rest H | before after H | before H].
    + left; left; left; exact H.
    + left; left; right. exists rest. rewrite H, <- app_assoc; reflexivity.
    + left; right. exists before, after.
      rewrite H, <- !app_assoc; reflexivity.
    + right. exists before; exact H.
Qed.

Lemma whole_token_nonempty (g t : jsstring) :
  whole_token g t -> t = [] -> g = [].
Proof.
  intros [H | rest H | before after H | before H] E; rewrite E in H.
  - congruence.
  - destruct g; [reflexivity | discriminate].
  - destruct before; discriminate.
  - destruct before; discriminate.
Qed.

Lemma greetings_nonempty (g : jsstring) : In g greetings -> g <> [].
Proof.
  unfold greetings; simpl.
  intros H E; subst g. repeat (destruct H as [H | H]; [discriminate|]).
  exact H.
Qed.

(** C7. [isGreeting] answers true exactly when a word of the greeting
    lexicon occurs in the lower-cased text as a whole token (exact match,
    leading, interior between two spaces, trailing); hence a lexicon word
    that occurs only inside another word never makes it true; the empty
    text and an absent text give false. *)
Theorem isGreeting_whole_token :
  (forall text : jsstring,
     isGreeting (Some text) = true <->
     exists g, In g greetings /\ whole_token g (toLowerCase text)) /\
  (forall text : jsstring,
     (forall g, In g greetings -> ~ whole_token g (toLowerCase text)) ->
     isGreeting (Some text) = false) /\
  isGreeting (Some []) = false /\
  isGreeting None = false.
Proof.
  assert (main : forall text : jsstring,
     isGreeting (Some text) = true <->
     exists g, In g greetings /\ whole_token g (toLowerCase text)).
  { intros text. unfold isGreeting. destruct text as [|c text].
    - simpl not_text. cbv iota. split; [discriminate|].
      intros (g & Hin & Htok). exfalso.
      apply (greetings_nonempty g Hin).
      apply (whole_token_nonempty g _ Htok). reflexivity.
    - simpl not_text. cbv iota. cbv zeta. simpl text_of.
      rewrite existsb_exists. split.
      + intros (g & Hin & Hhit). exists g. split; [exact Hin|].
        apply greeting_hit_spec; exact Hhit.
      + intros (g & Hin & Htok). exists g. split; [exact Hin|].
        apply greeting_hit_spec; exact Htok. }
  split; [exact main|]. split; [|split; reflexivity].
  intros text Hnone.
  destruct (isGreeting (Some text)) eqn:E; [|reflexivity].
  apply main in E as (g & Hin & Htok). destruct (Hnone g Hin Htok).
Qed.

Lemma isGreeting_whole_token_witness :
  isGreeting (Some (lit "chip shop")) = false.
Proof.
  apply (proj1 (proj2 isGreeting_whole_token) (lit "chip shop")).
  intros g Hin Htok. apply greeting_hit_spec in Htok.
  unfold greetings in Hin; simpl in Hin.
  repeat (destruct Hin as [<- | Hin];
          [vm_compute in Htok; discriminate Htok|]).
  exact Hin.
Defined.

Example isGreeting_Hello : isGreeting (Some (lit "Hello")) = true.
Proof. reflexivity. Qed.

Example isGreeting_this : isGreeting (Some (lit "this is it")) = false.
Proof. reflexivity. Qed.

Example isGreeting_trailing : isGreeting (Some (lit "Oh hey")) = true.
Proof. reflexivity. Qed.

Example isGreeting_punctuation : isGreeting (Some (lit "hi!")) = false.
Proof. reflexivity. Qed.

(* ------------------------------------------------------------------ *)
(** ** The stages of a turn *)

Lemma not_text_trim (s : jsstring) :
  not_text (Some (trim s)) = true <-> forallb is_white_space s = true.
Proof.
  rewrite <- trim_nil_iff. destruct (trim s); simpl; split;
    congruence || discriminate.
Qed.

Lemma record_input_messages (text : jsstring) (env : turn) (w : world) :
  messages (record_input text env w) = messages w ++ [user_message text env].
Proof. unfold record_input. destruct (nameMatch text); reflexivity. Qed.

Lemma record_input_log (text : jsstring) (env : turn) (w : world) :
  log (record_input text env w) = log w.
Proof. unfold record_input. destruct (nameMatch text); reflexivity. Qed.

Lemma record_input_chatWindow (text : jsstring) (env : turn) (w : world) :
  chatWindow (record_input text env w) =
  [{| node_role := User; is_loading := false;
      bubbles := [{| label := lit " "; shown := str text |}] |}].
Proof. unfold record_input. destruct (nameMatch text); reflexivity. Qed.

Lemma record_input_pastQuestions (text : jsstring) (env : turn) (w : world) :
  pastQuestions (record_input text env w) = pastQuestions w ++ [JStr text].
Proof. unfold record_input. destruct (nameMatch text); reflexivity. Qed.

(** What the storage holds after the first stage of a turn: the snapshot
    with the user message, the question log without the new question, the
    name key as it was. *)
Lemma record_input_localStorage (text : jsstring) (env : turn) (w : world) :
  localStorage (record_input text env w) =
  {| loreal_messages :=
       Some (Json (messages_json
                     (slice1 (messages w ++ [user_message text env]))));
     loreal_pastQuestions := Some (Json (JArr (pastQuestions w)));
     loreal_userName := loreal_userName (localStorage w) |}.
Proof. unfold record_input. destruct (nameMatch text); reflexivity. Qed.

Lemma record_input_userName (text : jsstring) (env : turn) (w : world) :
  userName (record_input text env w) =
  match nameMatch text with
  | Some captured => Some (trim captured)
  | None => userName w
  end.
Proof. unfold record_input. destruct (nameMatch text); reflexivity. Qed.

Lemma record_input_userNameDisplay (text : jsstring) (env : turn) (w : world) :
  userNameDisplay (record_input text env w) = userNameDisplay w.
Proof. unfold record_input. destruct (nameMatch text); reflexivity. Qed.

(* ------------------------------------------------------------------ *)
(** ** Blank input *)

(** C9. When the input field holds nothing but white space (or nothing at
    all), the submit handler returns at its guard: the conversation, the
    question log, the user name, the storage, the chat window, the input
    field and the log of remote calls are the ones before the event. *)
Theorem blank_input_rejected (env : turn) (w : world) :
  forallb is_white_space (userInput w) = true ->
  submit env w = w.
Proof.
  intros H. unfold submit.
  apply not_text_trim in H. rewrite H. reflexivity.
Qed.

Lemma blank_input_rejected_witness :
  forallb is_white_space (userInput (typing "   " fresh)) = true /\
  submit (turn_with Rejected) (typing "   " fresh) = typing "   " fresh.
Proof.
  split; [reflexivity|].
  apply (blank_input_rejected (turn_with Rejected) (typing "   " fresh)).
  reflexivity.
Defined.

(* ------------------------------------------------------------------ *)
(** ** Greetings are answered locally *)

(** C8. When the trimmed input is not empty and [isGreeting] holds of it,
    the turn appends the user message and the canned greeting, shows both,
    saves the snapshot that contains them, and the log of remote effects is
    untouched: [sendToApi] is not called and nothing is fetched. *)
Theorem greeting_answered_locally (env : turn) (w : world) :
  trim (userInput w) <> [] ->
  isGreeting (Some (trim (userInput w))) = true ->
  log (submit env w) = log w /\
  messages (submit env w) =
    messages w ++ [user_message (trim (userInput w)) env;
                   assistant_message (str greet) env] /\
  loreal_messages (localStorage (submit env w)) =
    Some (Json (messages_json (snapshot (submit env w)))) /\
  chatWindow (submit env w) =
    [{| node_role := User; is_loading := false;
        bubbles := [{| label := lit " ";
                       shown := str (trim (userInput w)) |}] |};
     {| node_role := Ai; is_loading := false;
        bubbles := [{| label := advisor_label; shown := str greet |}] |}].
Proof.
  intros Hne Hg. unfold submit.
  destruct (trim (userInput w)) as [|c text] eqn:E; [congruence|].
  cbv zeta. simpl not_text. cbv iota. rewrite Hg.
  unfold reply_with, saveConversation, snapshot, push,
    renderAssistantMessage.
  cbn [log messages localStorage chatWindow set_messages set_localStorage
       set_chatWindow loreal_messages setItem_messages
       setItem_pastQuestions].
  rewrite record_input_log, record_input_messages, record_input_chatWindow.
  rewrite <- app_assoc. repeat split; reflexivity.
Qed.

Lemma greeting_answered_locally_witness :
  log (submit (turn_with Rejected) (typing "Hello" fresh)) = [] /\
  List.length (messages (submit (turn_with Rejected) (typing "Hello" fresh)))
    = 3%nat.
Proof.
  destruct (greeting_answered_locally (turn_with Rejected)
              (typing "Hello" fresh)) as (Hlog & Hmsg & _).
  - vm_compute; discriminate.
  - vm_compute; reflexivity.
  - split; [exact Hlog | rewrite Hmsg; reflexivity].
Defined.

(* ------------------------------------------------------------------ *)
(** ** The transport is always the worker *)

(** C10. [getWorkerUrl] returns the same non-empty address whatever the
    page configures, so [sendToApi] always takes the worker branch: it makes
    exactly one request, to that address and without a credential, its
    outcome is the one of the worker branch and never the missing
    configuration error, and the handler's own configuration guard is
    false. *)
Theorem worker_branch_always_taken :
  forall (env : turn) (messagesArray : list message),
    getWorkerUrl env = worker_address /\
    truthy (str (getWorkerUrl env)) = true /\
    sendToApi env messagesArray = via_worker worker_address env messagesArray /\
    fst (sendToApi env messagesArray) =
      [{| url := worker_address; bearer := None;
          body := JObj [(lit "messages", messages_json messagesArray)] |}] /\
    snd (sendToApi env messagesArray) <> inl NoTransportConfigured /\
    (forall status text,
       snd (sendToApi env messagesArray) <> inl (OpenAIStatus status text)) /\
    negb (truthy (str (getWorkerUrl env)))
      && negb (truthy (OPENAI_API_KEY env)) = false.
Proof.
  intros env messagesArray.
  assert (H : forall e, snd (sendToApi env messagesArray) = inl e ->
                e = NetworkError \/ e = BodySyntaxError \/
                exists status text, e = WorkerStatus status text).
  { intros e.
    change (sendToApi env messagesArray)
      with (via_worker worker_address env messagesArray).
    unfold via_worker; cbn [snd].
    destruct (network env _) as [|status text [data|]].
    - intros E; injection E as <-; auto.
    - destruct (negb (resp_ok status)); [|discriminate].
      intros E; injection E as <-; eauto.
    - destruct (negb (resp_ok status));
        intros E; injection E as <-; eauto. }
  split; [reflexivity|]. split; [reflexivity|]. split; [reflexivity|].
  split; [reflexivity|]. split; [|split; [|reflexivity]].
  - intros E. destruct (H _ E) as [D | [D | (s & t & D)]]; discriminate D.
  - intros status text E.
    destruct (H _ E) as [D | [D | (s & t & D)]]; discriminate D.
Qed.

(** With the guard false, the remote stage of a turn is the call followed by
    the success or the error path; the configuration message is not
    produced. *)
Lemma ask_remote_calls (env : turn) (w : world) :
  ask_remote env w =
  let call := via_worker worker_address env (messages w) in
  let w' :=
    set_log (log w ++ Called_sendToApi (messages w)
                        :: map Fetched (fst call)) w in
  match snd call with
  | inl _ => on_error w'
  | inr data =>
      match assistantText (Some data) with
      | Throw => on_error (remove_loading w')
      | Ok text => reply_with text env (remove_loading (remove_loading w'))
      end
  end.
Proof. reflexivity. Qed.

(* ------------------------------------------------------------------ *)
(** ** What the handlers append to the conversation *)

Example setUserName_trims :
  userName (setUserName (Some (lit " Ann ")) fresh) = Some (lit "Ann") /\
  loreal_userName (localStorage (setUserName (Some (lit " Ann ")) fresh))
    = Some (lit "Ann").
Proof. split; reflexivity. Qed.

Section Appended.

Variable P : message -> Prop.
Hypothesis P_user : forall text env, P (user_message text env).
Hypothesis P_assistant : forall v env, P (assistant_message v env).
Hypothesis P_untimed :
  forall v, P {| role := str (lit "assistant"); content := v; time := None |}.

Lemma appends_refl (w : world) : appends P w w.
Proof. exists []. rewrite app_nil_r. auto. Qed.

Lemma appends_one (w w' : world) (m : message) :
  messages w' = messages w ++ [m] -> P m -> appends P w w'.
Proof. intros H Hm. exists [m]. auto. Qed.

Lemma appends_trans (w1 w2 w3 : world) :
  appends P w1 w2 -> appends P w2 w3 -> appends P w1 w3.
Proof.
  intros (e1 & H1 & F1) (e2 & H2 & F2). exists (e1 ++ e2).
  rewrite H2, H1, app_assoc. split; [reflexivity|].
  apply Forall_app; auto.
Qed.

Lemma record_input_appends (text : jsstring) (env : turn) (w : world) :
  appends P w (record_input text env w).
Proof.
  apply (appends_one _ _ (user_message text env));
    [apply record_input_messages | apply P_user].
Qed.

Lemma reply_with_appends (text : val) (env : turn) (w : world) :
  appends P w (reply_with text env w).
Proof.
  apply (appends_one _ _ (assistant_message text env));
    [reflexivity | apply P_assistant].
Qed.

Lemma on_error_appends (w : world) : appends P w (on_error w).
Proof.
  apply (appends_one _ _ apology); [reflexivity | apply P_untimed].
Qed.

Lemma ask_remote_appends (env : turn) (w : world) :
  appends P w (ask_remote env w).
Proof.
  rewrite ask_remote_calls. cbv zeta.
  destruct (snd (via_worker worker_address env (messages w))) as [e|data].
  - apply (appends_one _ _ apology); [reflexivity | apply P_untimed].
  - destruct (assistantText (Some data)) as [text|].
    + apply (appends_one _ _ (assistant_message text env));
        [reflexivity | apply P_assistant].
    + apply (appends_one _ _ apology); [reflexivity | apply P_untimed].
Qed.

Lemma submit_appends (env : turn) (w : world) :
  appends P w (submit env w).
Proof.
  unfold submit. cbv zeta.
  destruct (not_text (Some (trim (userInput w)))); [apply appends_refl|].
  eapply appends_trans; [apply record_input_appends|].
  destruct (isGreeting _); [apply reply_with_appends|].
  destruct (negb (isRelatedQuery _)); [apply reply_with_appends|].
  eapply appends_trans; [|apply ask_remote_appends].
  exists []. rewrite app_nil_r. split; [reflexivity | constructor].
Qed.

Lemma editName_appends (answer : option jsstring) (w : world) :
  appends P w (editName answer w).
Proof.
  destruct answer as [name|]; [|apply appends_refl].
  unfold editName.
  assert (Hset : messages (setUserName (Some name) w) = messages w).
  { unfold setUserName. destruct name as [|c name]; [reflexivity|].
    destruct (trim (c :: name)); reflexivity. }
  destruct name as [|c name].
  - exists []. rewrite app_nil_r. split; [exact Hset | constructor].
  - destruct (trim (c :: name)) as [|d t] eqn:E.
    + exists []. rewrite app_nil_r. split; [exact Hset | constructor].
    + eexists. split; [|apply Forall_cons; [apply P_untimed | constructor]].
      cbn [renderAssistantMessage push set_messages set_chatWindow messages].
      rewrite Hset. reflexivity.
Qed.

(** What a turn leaves under the messages key: what was there (blank
    input), or the snapshot of the conversation extended by the turn. *)
Lemma submit_saved (env : turn) (w : world) :
  loreal_messages (localStorage (submit env w)) =
    loreal_messages (localStorage w) \/
  exists extra,
    Forall P extra /\
    loreal_messages (localStorage (submit env w)) =
      Some (Json (messages_json (slice1 (messages w ++ extra)))).
Proof.
  unfold submit; cbv zeta.
  destruct (not_text (Some (trim (userInput w)))); [left; reflexivity|].
  right.
  destruct (isGreeting _);
    [ | destruct (negb (isRelatedQuery _));
        [ | rewrite ask_remote_calls; cbv zeta;
            destruct (snd (via_worker _ _ _)) as [?|?];
            [ | destruct (assistantText _) as [?|] ] ] ];
    unfold reply_with, on_error, saveConversation, snapshot;
    cbn [messages localStorage set_messages set_localStorage set_chatWindow
         set_log push remove_loading show_loading renderAssistantMessage
         loreal_messages setItem_messages setItem_pastQuestions];
    rewrite ?record_input_localStorage, ?record_input_messages,
      <- ?app_assoc;
    cbn [loreal_messages app];
    eexists; (split; [|reflexivity]);
    repeat (apply Forall_cons; [solve [apply P_user | apply P_assistant]|]);
    constructor.
Qed.

End Appended.

(* ------------------------------------------------------------------ *)
(** ** Restoring a snapshot *)

Lemma shallow_copy_time (m : json) : time (shallow_copy m) <> None.
Proof.
  unfold shallow_copy; cbn [time].
  destruct (read m "time") as [t|]; [|discriminate].
  destruct (truthy (Some t)); discriminate.
Qed.

Lemma restored_copy_cases (m : json) :
  (m = JNull /\ restored_copy m = Throw) \/
  (m <> JNull /\ restored_copy m = Ok (shallow_copy m)).
Proof. destruct m; (left; split; reflexivity) || (right; split; [discriminate | reflexivity]). Qed.

(** The loop over the entries copies every entry up to the first [null]. *)
Lemma restore_entries_prefix (arr : list json) (msgs : list message) :
  exists copied skipped,
    arr = copied ++ skipped /\
    fst (restore_entries arr msgs) = msgs ++ map shallow_copy copied /\
    (snd (restore_entries arr msgs) = true -> skipped = []).
Proof.
  revert msgs; induction arr as [|m arr IH]; intros msgs.
  - exists [], []. simpl. rewrite app_nil_r. auto.
  - cbn [restore_entries].
    destruct (restored_copy_cases m) as [[_ E] | [_ E]]; rewrite E.
    + exists [], (m :: arr). simpl. rewrite app_nil_r.
      split; [reflexivity|]. split; [reflexivity | discriminate].
    + destruct (IH (msgs ++ [shallow_copy m]))
        as (copied & skipped & H0 & H1 & H2).
      exists (m :: copied), skipped. rewrite H1, <- app_assoc.
      split; [rewrite H0; reflexivity|]. split; [reflexivity | exact H2].
Qed.

(** With no [null] among the entries the loop copies them all. *)
Lemma restore_entries_all (arr : list json) (msgs : list message) :
  Forall (fun m => m <> JNull) arr ->
  restore_entries arr msgs = (msgs ++ map shallow_copy arr, true).
Proof.
  intros H; revert msgs; induction H as [|m arr Hm _ IH]; intros msgs.
  - simpl. rewrite app_nil_r. reflexivity.
  - cbn [restore_entries].
    destruct (restored_copy_cases m) as [[E _] | [_ E]]; [congruence|].
    rewrite E, IH, <- app_assoc. reflexivity.
Qed.

Lemma restoreConversation_localStorage (w : world) :
  localStorage (fst (restoreConversation w)) = localStorage w.
Proof.
  unfold restoreConversation.
  destruct (loreal_messages (localStorage w)) as [[| |v]|]; try reflexivity.
  destruct v as [| | | |[|m arr]|]; try reflexivity.
  destruct (restore_entries (m :: arr) (messages w)) as [msgs ok].
  destruct ok; [|reflexivity].
  cbn [localStorage set_messages].
  destruct (loreal_pastQuestions (localStorage w)) as [[| |q]|];
    try reflexivity.
  destruct q; reflexivity.
Qed.

(** The messages after a restore: the ones before it and the copies of a
    prefix of the persisted array. *)
Lemma restoreConversation_messages (w : world) :
  exists copied skipped,
    messages (fst (restoreConversation w)) =
      messages w ++ map shallow_copy copied /\
    (copied = [] \/
     loreal_messages (localStorage w)
       = Some (Json (JArr (copied ++ skipped)))).
Proof.
  unfold restoreConversation.
  destruct (loreal_messages (localStorage w)) as [[| |v]|];
    try solve [exists [], []; simpl; rewrite app_nil_r; auto].
  destruct v as [| | | |[|m arr]|];
    try solve [exists [], []; simpl; rewrite app_nil_r; auto].
  destruct (restore_entries_prefix (m :: arr) (messages w))
    as (copied & skipped & H0 & H1 & _).
  exists copied, skipped. rewrite <- H0. split; [|auto].
  destruct (restore_entries (m :: arr) (messages w)) as [msgs ok].
  cbn [fst] in H1. subst msgs.
  destruct ok; [|reflexivity].
  cbn [localStorage set_messages].
  destruct (loreal_pastQuestions (localStorage w)) as [[| |q]|];
    try reflexivity.
  destruct q; reflexivity.
Qed.

Lemma setUserName_messages (name : option jsstring) (w : world) :
  messages (setUserName name w) = messages w.
Proof.
  unfold setUserName. destruct name as [[|c s]|]; try reflexivity.
  destruct (trim (c :: s)); reflexivity.
Qed.

Lemma load_messages (ls : storage) (display : option jsstring) :
  exists copied,
    messages (load ls display) = system_message :: map shallow_copy copied.
Proof.
  unfold load.
  destruct (restoreConversation_messages (initial ls display))
    as (copied & skipped & H & _).
  exists copied.
  match goal with
  | |- messages (match ?x with _ => _ end) = _ => destruct x as [[|c s]|]
  end; rewrite ?setUserName_messages; exact H.
Qed.

(* ------------------------------------------------------------------ *)
(** ** The system message stays first *)

Lemma later_user (text : jsstring) (env : turn) :
  later_message (user_message text env).
Proof. right; discriminate. Qed.

Lemma later_assistant (v : val) (env : turn) :
  later_message (assistant_message v env).
Proof. right; discriminate. Qed.

Lemma later_untimed (v : val) :
  later_message
    {| role := str (lit "assistant"); content := v; time := None |}.
Proof. left. cbn [role]. intros H. vm_compute in H. discriminate H. Qed.

Lemma later_copy (m : json) : later_message (shallow_copy m).
Proof. right. apply shallow_copy_time. Qed.

Lemma later_not_system (m : message) :
  later_message m -> m <> system_message.
Proof. intros [H | H] E; subst m; apply H; reflexivity. Qed.

Lemma load_system_first (ls : storage) (display : option jsstring) :
  system_first (load ls display).
Proof.
  destruct (load_messages ls display) as (copied & H).
  exists (map shallow_copy copied). split; [exact H|].
  apply Forall_forall. intros m Hin.
  apply in_map_iff in Hin as (j & <- & _). apply later_copy.
Qed.

Lemma appends_system_first (w w' : world) :
  appends later_message w w' -> system_first w -> system_first w'.
Proof.
  intros (extra & H & F) (rest & Hw & Fw).
  exists (rest ++ extra). rewrite H, Hw. split; [reflexivity|].
  apply Forall_app; auto.
Qed.

(** What the clear button leaves, field by field. *)
Lemma clearConversation_eq (w : world) :
  clearConversation w =
  {| messages := match messages w with
                 | system :: _ => [system]
                 | [] => []
                 end;
     userName := None;
     pastQuestions := [];
     localStorage := empty_storage;
     chatWindow := [{| node_role := Ai; is_loading := false;
                       bubbles := [{| label := advisor_label;
                                      shown := str welcome |}] |}];
     userInput := userInput w;
     userNameDisplay := option_map (fun _ => lit "Guest") (userNameDisplay w);
     log := log w |}.
Proof. destruct w as [[|m l] n q s c i d r]; reflexivity. Qed.

Lemma step_system_first (w : world) (e : event) :
  system_first w -> system_first (step w e).
Proof.
  intros Hw. destruct e as [s | env | answer |]; cbn [step].
  - exact Hw.
  - apply (appends_system_first w); [|exact Hw].
    apply submit_appends;
      [apply later_user | apply later_assistant | apply later_untimed].
  - apply (appends_system_first w); [|exact Hw].
    apply editName_appends. apply later_untimed.
  - destruct Hw as (rest & Hw & _). exists [].
    rewrite clearConversation_eq; cbn [messages]. rewrite Hw. auto.
Qed.

Lemma reachable_system_first (w : world) :
  reachable w -> system_first w.
Proof.
  induction 1 as [ls display | w e _ IH];
    [apply load_system_first | apply step_system_first; exact IH].
Qed.

Lemma message_json_inj (a b : message) :
  message_json a = message_json b -> a = b.
Proof.
  destruct a as [[ra|] [ca|] [ta|]], b as [[rb|] [cb|] [tb|]];
    intros H; vm_compute in H; congruence.
Qed.

(* ------------------------------------------------------------------ *)
(** ** Reset *)

(** C5. In every state of a session, the clear button leaves a conversation
    that holds the system message and nothing else, an empty question log
    and no user name; the three keys are removed from the storage. *)
Theorem reset_restores_initial_store (w : world) :
  reachable w ->
  messages (clearConversation w) = [system_message] /\
  pastQuestions (clearConversation w) = [] /\
  userName (clearConversation w) = None /\
  localStorage (clearConversation w) = empty_storage.
Proof.
  intros H. apply reachable_system_first in H as (rest & Hw & _).
  rewrite clearConversation_eq; cbn [messages pastQuestions userName localStorage].
  rewrite Hw. repeat split; reflexivity.
Qed.

(* ------------------------------------------------------------------ *)
(** ** The system message is first and is never written *)

(** C6. In every state of a session (the script loaded on any storage, then
    any events: submits, name edits, resets) the conversation is the system
    message followed by the snapshot, the system message does not occur in
    the snapshot, and what [saveConversation] writes under the messages key
    is the JSON of the snapshot, in which the entry of the system message
    does not occur. *)
Theorem system_message_first_never_saved (w : world) :
  reachable w ->
  hd_error (messages w) = Some system_message /\
  messages w = system_message :: snapshot w /\
  ~ In system_message (snapshot w) /\
  loreal_messages (localStorage (saveConversation w)) =
    Some (Json (JArr (map message_json (snapshot w)))) /\
  ~ In (message_json system_message) (map message_json (snapshot w)).
Proof.
  intros H. apply reachable_system_first in H as (rest & Hw & F).
  assert (Hno : ~ In system_message rest).
  { intros Hin. rewrite Forall_forall in F.
    apply (later_not_system _ (F _ Hin)). reflexivity. }
  unfold saveConversation, snapshot.
  cbn [localStorage set_localStorage loreal_messages setItem_messages
       setItem_pastQuestions].
  rewrite Hw. cbn [slice1 tl hd_error].
  split; [reflexivity|]. split; [reflexivity|]. split; [exact Hno|].
  split; [reflexivity|].
  intros Hin. apply in_map_iff in Hin as (m & E & Hin).
  apply message_json_inj in E. subst m. exact (Hno Hin).
Qed.

Lemma reachable_run (w : world) (es : list event) :
  reachable w -> reachable (run w es).
Proof.
  revert w; induction es as [|e es IH]; intros w H; [exact H|].
  apply IH. apply reach_step. exact H.
Qed.

Lemma reachable_after_hello : reachable after_hello.
Proof. apply reachable_run. apply reach_load. Qed.

Lemma reset_restores_initial_store_witness :
  messages (clearConversation after_hello) = [system_message] /\
  pastQuestions (clearConversation after_hello) = [] /\
  userName (clearConversation after_hello) = None /\
  localStorage (clearConversation after_hello) = empty_storage.
Proof.
  exact (reset_restores_initial_store after_hello reachable_after_hello).
Defined.

Lemma system_message_first_never_saved_witness :
  hd_error (messages after_hello) = Some system_message /\
  List.length (snapshot after_hello) = 2%nat.
Proof.
  destruct (system_message_first_never_saved after_hello
              reachable_after_hello) as (H & _).
  split; [exact H | reflexivity].
Defined.

(* ------------------------------------------------------------------ *)
(** ** Restore does not validate *)

Lemma read_message_json (m : message) :
  read (message_json m) "role" = role m /\
  read (message_json m) "content" = content m /\
  read (message_json m) "time" = time m.
Proof. destruct m as [[r|] [c|] [t|]]; repeat split; reflexivity. Qed.

(** The copy of an entry the script itself wrote: the message, its [time]
    replaced by [null] when it is falsy or missing. *)
Lemma shallow_copy_message_json (m : message) :
  shallow_copy (message_json m) = time_or_null m.
Proof.
  unfold shallow_copy.
  destruct (read_message_json m) as (-> & -> & ->). reflexivity.
Qed.

(** The specification's reading fails on a snapshot whose only entry lacks
    [role]: the sanitized sequence is empty, and the restore keeps the
    entry. *)
Lemma restore_keeps_malformed_entry :
  sanitized malformed_snapshot = [] /\
  snapshot (fst (restoreConversation (page_holding malformed_snapshot))) =
    [{| role := None; content := str (lit "hi"); time := Some JNull |}] /\
  map message_json
    (snapshot (fst (restoreConversation (page_holding malformed_snapshot))))
  <> sanitized malformed_snapshot.
Proof.
  split; [reflexivity|]. split; [reflexivity|].
  vm_compute. discriminate.
Qed.

(** The snapshot after a restore that meets no [null]. *)
Lemma restoreConversation_snapshot (w : world) (arr : list json) :
  arr <> [] ->
  Forall (fun m => m <> JNull) arr ->
  messages w <> [] ->
  loreal_messages (localStorage w) = Some (Json (JArr arr)) ->
  snapshot (fst (restoreConversation w)) =
    snapshot w ++ map shallow_copy arr.
Proof.
  intros Hne Hnull Hmsgs Hraw.
  unfold restoreConversation. rewrite Hraw.
  destruct arr as [|m arr]; [congruence|].
  rewrite (restore_entries_all _ _ Hnull).
  cbn [localStorage set_messages].
  assert (Hs : forall w',
             messages w' = messages w ++ map shallow_copy (m :: arr) ->
             snapshot w' = snapshot w ++ map shallow_copy (m :: arr)).
  { intros w' Hw'. unfold snapshot. rewrite Hw'.
    destruct (messages w); [congruence | reflexivity]. }
  destruct (loreal_pastQuestions (localStorage w)) as [[| |q]|];
    try (apply Hs; reflexivity).
  destruct q; apply Hs; reflexivity.
Qed.

(** C2, amended. [restoreConversation] does not validate: on a persisted
    non-empty array without [null] entries it pushes, for every entry in
    order, the copy with the entry's [role], [content] and [time || null],
    whether or not [role] and [content] are there. The snapshot after the
    restore is the snapshot before it followed by one copy per entry; no
    entry is removed. *)
Theorem restore_copies_every_entry (w : world) (arr : list json) :
  arr <> [] ->
  Forall (fun m => m <> JNull) arr ->
  messages w <> [] ->
  loreal_messages (localStorage w) = Some (Json (JArr arr)) ->
  snapshot (fst (restoreConversation w)) =
    snapshot w ++ map shallow_copy arr /\
  List.length (snapshot (fst (restoreConversation w))) =
    (List.length (snapshot w) + List.length arr)%nat.
Proof.
  intros Hne Hnull Hmsgs Hraw.
  pose proof (restoreConversation_snapshot w arr Hne Hnull Hmsgs Hraw) as E.
  split; [exact E|].
  rewrite E, length_app, length_map. reflexivity.
Qed.

Lemma restore_copies_every_entry_witness :
  snapshot (fst (restoreConversation (page_holding malformed_snapshot))) =
    snapshot (page_holding malformed_snapshot)
    ++ map shallow_copy malformed_snapshot.
Proof.
  apply (restore_copies_every_entry (page_holding malformed_snapshot)
           malformed_snapshot).
  - discriminate.
  - repeat constructor; discriminate.
  - discriminate.
  - reflexivity.
Defined.

(** A [null] entry stops the restore where it stands: the entries before it
    stay in the conversation, the call returns false. *)
Lemma restore_stops_at_null (w : world) (before after : list json) :
  Forall (fun m => m <> JNull) before ->
  loreal_messages (localStorage w) = Some (Json (JArr (before ++ JNull :: after))) ->
  restoreConversation w =
    (set_messages (messages w ++ map shallow_copy before) w, false).
Proof.
  intros Hb Hraw. unfold restoreConversation. rewrite Hraw.
  assert (E : forall msgs,
             restore_entries (before ++ JNull :: after) msgs =
             (msgs ++ map shallow_copy before, false)).
  { clear Hraw. induction Hb as [|m l Hm _ IH]; intros msgs.
    - simpl. rewrite app_nil_r. reflexivity.
    - cbn [app restore_entries].
      destruct (restored_copy_cases m) as [[E _] | [_ E]]; [congruence|].
      rewrite E, IH, <- app_assoc. reflexivity. }
  specialize (E (messages w)).
  destruct before as [|m l]; cbn [app] in E |- *; rewrite E; reflexivity.
Qed.

(* ------------------------------------------------------------------ *)
(** ** Path by path through a turn *)

(** Projections through the setters. *)
Ltac fields :=
  cbn [messages userName pastQuestions localStorage chatWindow userInput
       userNameDisplay log set_messages set_userName set_pastQuestions
       set_localStorage set_chatWindow set_userInput set_userNameDisplay
       set_log push saveConversation reply_with on_error remove_loading
       show_loading renderAssistantMessage renderUserMessage
       loreal_messages loreal_pastQuestions loreal_userName
       setItem_messages setItem_pastQuestions].

(** The case split of the submit handler past its guard: greeting, refusal,
    failed call, reply whose reading throws, reply. *)
Ltac turn_paths :=
  destruct (isGreeting _) eqn:?;
  [ | destruct (negb (isRelatedQuery _)) eqn:?;
      [ | rewrite ask_remote_calls; cbv zeta;
          destruct (snd (via_worker _ _ _)) as [?|?] eqn:?;
          [ | destruct (assistantText _) as [?|] eqn:? ] ] ].

Lemma submit_keeps_name_key (env : turn) (w : world) :
  loreal_userName (localStorage (submit env w)) =
    loreal_userName (localStorage w) /\
  userNameDisplay (submit env w) = userNameDisplay w.
Proof.
  unfold submit; cbv zeta.
  destruct (not_text (Some (trim (userInput w)))); [split; reflexivity|].
  turn_paths; fields;
    rewrite ?record_input_localStorage, ?record_input_userNameDisplay;
    split; reflexivity.
Qed.

Lemma submit_userName (env : turn) (w : world) :
  trim (userInput w) <> [] ->
  userName (submit env w) =
  match nameMatch (trim (userInput w)) with
  | Some captured => Some (trim captured)
  | None => userName w
  end.
Proof.
  intros Hne. unfold submit; cbv zeta.
  destruct (trim (userInput w)) as [|c text] eqn:E; [congruence|].
  simpl not_text; cbv iota.
  turn_paths; fields; apply record_input_userName.
Qed.

(** C3, as the code has it. When the pattern finds a name in the trimmed
    input, the turn assigns it (trimmed) to the variable [userName] and does
    no more: the key [loreal_userName] of the storage and the name element
    of the page are what they were before the turn. *)
Theorem introduced_name_not_stored
    (env : turn) (w : world) (captured : jsstring) :
  trim (userInput w) <> [] ->
  nameMatch (trim (userInput w)) = Some captured ->
  userName (submit env w) = Some (trim captured) /\
  loreal_userName (localStorage (submit env w)) =
    loreal_userName (localStorage w) /\
  userNameDisplay (submit env w) = userNameDisplay w.
Proof.
  intros Hne Hm. split.
  - rewrite (submit_userName env w Hne), Hm. reflexivity.
  - apply submit_keeps_name_key.
Qed.

Lemma introduced_name_not_stored_witness :
  userName
    (submit (turn_with server_error)
       (typing "My name is Alex, suggest a shampoo" fresh))
    = Some (lit "Alex") /\
  loreal_userName
    (localStorage
       (submit (turn_with server_error)
          (typing "My name is Alex, suggest a shampoo" fresh)))
    = None /\
  userNameDisplay
    (submit (turn_with server_error)
       (typing "My name is Alex, suggest a shampoo" fresh))
    = Some (lit "Guest").
Proof.
  apply (introduced_name_not_stored (turn_with server_error)
           (typing "My name is Alex, suggest a shampoo" fresh)
           (lit "Alex")).
  - vm_compute; discriminate.
  - vm_compute; reflexivity.
Defined.

(** The sibling path: the edit-name button stores the name. *)
Example editName_stores_name :
  loreal_userName (localStorage (editName (Some (lit "Alex")) fresh))
    = Some (lit "Alex") /\
  userNameDisplay (editName (Some (lit "Alex")) fresh) = Some (lit "Alex").
Proof. split; reflexivity. Qed.

(* ------------------------------------------------------------------ *)
(** ** A failed remote call *)

Lemma slice1_length (l : list message) :
  List.length (slice1 l) = pred (List.length l).
Proof. destruct l; reflexivity. Qed.

Lemma remote_stage_messages (text : jsstring) (env : turn) (w : world) :
  messages (show_loading (record_input text env w)) =
  messages w ++ [user_message text env].
Proof. fields. apply record_input_messages. Qed.

(** C1, as the code has it. On a turn that reaches the remote call and whose
    call fails, the placeholder is removed, the apology is shown and pushed
    after the user message, and nothing is saved: the storage still holds
    the snapshot written before the call, which ends with the user message
    and lacks the apology. *)
Theorem failed_call_apology_not_saved
    (env : turn) (w : world) (e : error) :
  trim (userInput w) <> [] ->
  isGreeting (Some (trim (userInput w))) = false ->
  isRelatedQuery (Some (trim (userInput w))) = true ->
  snd (sendToApi env
         (messages w ++ [user_message (trim (userInput w)) env])) = inl e ->
  messages (submit env w) =
    messages w ++ [user_message (trim (userInput w)) env; apology] /\
  chatWindow (submit env w) =
    [{| node_role := User; is_loading := false;
        bubbles := [{| label := lit " ";
                       shown := str (trim (userInput w)) |}] |};
     {| node_role := Ai; is_loading := false;
        bubbles := [{| label := advisor_label; shown := str errMsg |}] |}] /\
  loreal_messages (localStorage (submit env w)) =
    Some (Json (messages_json
                  (slice1 (messages w
                           ++ [user_message (trim (userInput w)) env])))) /\
  loreal_messages (localStorage (submit env w)) <>
    Some (Json (messages_json (snapshot (submit env w)))).
Proof.
  intros Hne Hg Hr Hfail.
  assert (Hpath : submit env w =
            on_error
              (set_log
                 (log w ++
                  Called_sendToApi
                    (messages w ++ [user_message (trim (userInput w)) env])
                  :: map Fetched
                       (fst (via_worker worker_address env
                               (messages w
                                ++ [user_message (trim (userInput w)) env]))))
                 (show_loading (record_input (trim (userInput w)) env w)))).
  { unfold submit; cbv zeta.
    destruct (trim (userInput w)) as [|c text] eqn:E; [congruence|].
    simpl not_text; cbv iota. rewrite Hg, Hr. simpl negb; cbv iota.
    rewrite ask_remote_calls; cbv zeta.
    rewrite remote_stage_messages.
    change (sendToApi env ?x) with (via_worker worker_address env x) in Hfail.
    rewrite Hfail. unfold show_loading at 1.
    fields. rewrite record_input_log. reflexivity. }
  assert (Hm : messages (submit env w) =
            messages w ++ [user_message (trim (userInput w)) env; apology]).
  { rewrite Hpath. fields. rewrite record_input_messages, <- app_assoc.
    reflexivity. }
  assert (Hs : loreal_messages (localStorage (submit env w)) =
            Some (Json (messages_json
                          (slice1 (messages w
                             ++ [user_message (trim (userInput w)) env]))))).
  { rewrite Hpath. fields. rewrite record_input_localStorage. reflexivity. }
  split; [exact Hm|]. split; [|split; [exact Hs|]].
  - rewrite Hpath. fields. rewrite record_input_chatWindow. reflexivity.
  - rewrite Hs. unfold snapshot. rewrite Hm. intros H.
    injection H as H. apply (f_equal (@List.length json)) in H.
    rewrite !length_map, !slice1_length, !length_app in H.
    simpl in H. lia.
Qed.

Lemma failed_call_apology_not_saved_witness :
  messages
    (submit (turn_with server_error)
       (typing "Recommend a moisturizer for dry skin" fresh)) =
    [system_message;
     user_message (lit "Recommend a moisturizer for dry skin")
       (turn_with server_error);
     apology] /\
  loreal_messages
    (localStorage
       (submit (turn_with server_error)
          (typing "Recommend a moisturizer for dry skin" fresh))) =
    Some (Json (messages_json
                  [user_message (lit "Recommend a moisturizer for dry skin")
                     (turn_with server_error)])).
Proof.
  destruct (failed_call_apology_not_saved (turn_with server_error)
              (typing "Recommend a moisturizer for dry skin" fresh)
              (WorkerStatus 500 (lit "Internal Server Error")))
    as (Hm & _ & Hs & _).
  - vm_compute; discriminate.
  - vm_compute; reflexivity.
  - vm_compute; reflexivity.
  - vm_compute; reflexivity.
  - split; [exact Hm | exact Hs].
Defined.

(** On the same path the question log in the storage is the one written
    before the question was logged. *)
Lemma failed_call_question_not_saved
    (env : turn) (w : world) (e : error) :
  trim (userInput w) <> [] ->
  isGreeting (Some (trim (userInput w))) = false ->
  isRelatedQuery (Some (trim (userInput w))) = true ->
  snd (sendToApi env
         (messages w ++ [user_message (trim (userInput w)) env])) = inl e ->
  pastQuestions (submit env w) =
    pastQuestions w ++ [JStr (trim (userInput w))] /\
  loreal_pastQuestions (localStorage (submit env w)) =
    Some (Json (JArr (pastQuestions w))).
Proof.
  intros Hne Hg Hr Hfail.
  unfold submit; cbv zeta.
  destruct (trim (userInput w)) as [|c text] eqn:E; [congruence|].
  simpl not_text; cbv iota. rewrite Hg, Hr. simpl negb; cbv iota.
  rewrite ask_remote_calls; cbv zeta.
  rewrite remote_stage_messages.
  change (sendToApi env ?x) with (via_worker worker_address env x) in Hfail.
  rewrite Hfail. fields.
  rewrite record_input_pastQuestions, record_input_localStorage.
  split; reflexivity.
Qed.

(** The sibling paths save what they push: after a refusal the storage
    holds the snapshot with the refusal. *)
Example refusal_is_saved :
  loreal_messages
    (localStorage
       (submit (turn_with Rejected)
          (typing "What's the weather today?" fresh))) =
  Some (Json (messages_json
                (snapshot
                   (submit (turn_with Rejected)
                      (typing "What's the weather today?" fresh))))).
Proof. vm_compute. reflexivity. Qed.

(* ------------------------------------------------------------------ *)
(** ** Reading the response *)

Lemma prop_truthy (v : val) (k : string) :
  truthy v = true -> exists x, prop v k = Ok x.
Proof.
  destruct v as [[| | | | |]|]; simpl; try discriminate; eauto.
Qed.

Lemma index0_truthy (v : val) :
  truthy v = true -> exists x, index0 v = Ok x.
Proof.
  destruct v as [[| | |[|c s]| |]|]; simpl; try discriminate; eauto.
Qed.

(** Reading the response never throws: every property is read behind a
    truthiness test. *)
Lemma assistantText_total (data : val) :
  exists text, assistantText data = Ok text.
Proof.
  unfold assistantText.
  destruct (truthy data) eqn:Hd; [|eauto].
  destruct (prop_truthy data "choices" Hd) as [choices ->]. cbn [bind].
  destruct (truthy choices) eqn:Hc; [|eauto].
  destruct (index0_truthy choices Hc) as [first ->]. cbn [bind].
  destruct (truthy first) eqn:Hf; [|eauto].
  destruct (prop_truthy first "message" Hf) as [message ->]. cbn [bind].
  destruct (truthy message) eqn:Hm; [|eauto].
  apply prop_truthy; exact Hm.
Qed.

(** The sentinel is what comes back when the chain stops before the
    message. *)
Example assistantText_no_choices :
  assistantText (Some (JObj [])) = Ok (str no_response) /\
  assistantText (Some JNull) = Ok (str no_response) /\
  assistantText (Some (JObj [(lit "choices", JArr [])])) = Ok (str no_response) /\
  assistantText (Some (JObj [(lit "choices", JArr [JObj []])]))
    = Ok (str no_response).
Proof. repeat split; reflexivity. Qed.

Lemma assistantText_message_without_content
    (fs : list (jsstring * json)) (more : list json) :
  lookup (lit "content") fs = None ->
  assistantText
    (Some (JObj [(lit "choices",
                  JArr (JObj [(lit "message", JObj fs)] :: more))])) = Ok None.
Proof.
  intros H. unfold assistantText.
  change (prop (Some (JObj [(lit "choices",
                  JArr (JObj [(lit "message", JObj fs)] :: more))])) "choices")
    with (@Ok val (Some (JArr (JObj [(lit "message", JObj fs)] :: more)))).
  cbn [truthy bind index0 hd_error].
  change (prop (Some (JObj [(lit "message", JObj fs)])) "message")
    with (@Ok val (Some (JObj fs))).
  cbn [truthy bind prop]. rewrite H. reflexivity.
Qed.

(** C4, as the code has it. When the first choice of a successful response
    carries a message object that has no [content], the value read is
    [undefined], not the sentinel, and the turn pushes an assistant message
    whose [content] is [undefined]. *)
Theorem message_without_content_not_replaced
    (env : turn) (w : world)
    (fs : list (jsstring * json)) (more : list json) :
  trim (userInput w) <> [] ->
  isGreeting (Some (trim (userInput w))) = false ->
  isRelatedQuery (Some (trim (userInput w))) = true ->
  snd (sendToApi env
         (messages w ++ [user_message (trim (userInput w)) env])) =
    inr (JObj [(lit "choices",
                JArr (JObj [(lit "message", JObj fs)] :: more))]) ->
  lookup (lit "content") fs = None ->
  messages (submit env w) =
    messages w ++ [user_message (trim (userInput w)) env;
                   assistant_message None env] /\
  content (assistant_message None env) <> str no_response.
Proof.
  intros Hne Hg Hr Hcall Hfs. split; [|discriminate].
  unfold submit; cbv zeta.
  destruct (trim (userInput w)) as [|c text] eqn:E; [congruence|].
  simpl not_text; cbv iota. rewrite Hg, Hr. simpl negb; cbv iota.
  rewrite ask_remote_calls; cbv zeta.
  rewrite remote_stage_messages.
  change (sendToApi env ?x) with (via_worker worker_address env x) in Hcall.
  rewrite Hcall.
  rewrite (assistantText_message_without_content fs more Hfs).
  fields. rewrite record_input_messages, <- app_assoc. reflexivity.
Qed.

Lemma message_without_content_not_replaced_witness :
  messages
    (submit (turn_with (ok_reply message_without_content))
       (typing "Recommend a moisturizer for dry skin" fresh)) =
    [system_message;
     user_message (lit "Recommend a moisturizer for dry skin")
       (turn_with (ok_reply message_without_content));
     assistant_message None (turn_with (ok_reply message_without_content))].
Proof.
  destruct (message_without_content_not_replaced
              (turn_with (ok_reply message_without_content))
              (typing "Recommend a moisturizer for dry skin" fresh) [] [])
    as (Hm & _).
  - vm_compute; discriminate.
  - vm_compute; reflexivity.
  - vm_compute; reflexivity.
  - vm_compute; reflexivity.
  - reflexivity.
  - exact Hm.
Defined.

(* ------------------------------------------------------------------ *)
(** ** Sessions chained from an empty storage *)

Lemma chat_user (text : jsstring) (env : turn) :
  chat_role (user_message text env).
Proof. left; reflexivity. Qed.

Lemma chat_assistant (v : val) (env : turn) :
  chat_role (assistant_message v env).
Proof. right; reflexivity. Qed.

Lemma chat_untimed (v : val) :
  chat_role {| role := str (lit "assistant"); content := v; time := None |}.
Proof. right; reflexivity. Qed.

Lemma chat_copy (m : message) :
  chat_role m -> chat_role (shallow_copy (message_json m)).
Proof.
  unfold chat_role. rewrite shallow_copy_message_json.
  unfold time_or_null; cbn [role]. auto.
Qed.

Lemma setUserName_messages_key (name : option jsstring) (w : world) :
  loreal_messages (localStorage (setUserName name w)) =
  loreal_messages (localStorage w).
Proof.
  unfold setUserName. destruct name as [[|c s]|]; try reflexivity.
  destruct (trim (c :: s)); reflexivity.
Qed.

Lemma editName_messages_key (answer : option jsstring) (w : world) :
  loreal_messages (localStorage (editName answer w)) =
  loreal_messages (localStorage w).
Proof.
  destruct answer as [name|]; [|reflexivity]. unfold editName.
  destruct name as [|c name]; [apply setUserName_messages_key|].
  destruct (trim (c :: name)); [apply setUserName_messages_key|].
  fields. apply setUserName_messages_key.
Qed.

Lemma load_messages_key (ls : storage) (display : option jsstring) :
  loreal_messages (localStorage (load ls display)) = loreal_messages ls.
Proof.
  unfold load.
  match goal with
  | |- context [match ?x with _ => _ end] => destruct x as [[|c s]|]
  end; rewrite ?setUserName_messages_key; fields;
    rewrite restoreConversation_localStorage; reflexivity.
Qed.

Lemma map_eq_app_inv (ms : list message) (a b : list json) :
  a ++ b = map message_json ms ->
  exists ma, a = map message_json ma /\ incl ma ms.
Proof.
  revert ms; induction a as [|x a IH]; intros ms H.
  - exists []. split; [reflexivity | intros m []].
  - destruct ms as [|m ms]; [discriminate|].
    injection H as Hx Hrest. destruct (IH ms Hrest) as (ma & -> & Hincl).
    exists (m :: ma). split; [rewrite Hx; reflexivity|].
    intros y [<- | Hy]; [left; reflexivity | right; apply Hincl; exact Hy].
Qed.

Lemma load_chat (ls : storage) (display : option jsstring) :
  stored_chat ls -> chat_world (load ls display).
Proof.
  intros Hls. split.
  - destruct (restoreConversation_messages (initial ls display))
      as (copied & skipped & Hm & Hc).
    exists (map shallow_copy copied). split.
    + unfold load.
      match goal with
      | |- messages (match ?x with _ => _ end) = _ => destruct x as [[|c s]|]
      end; rewrite ?setUserName_messages; exact Hm.
    + destruct Hc as [-> | Hc]; [constructor|].
      unfold stored_chat in Hls. cbn [localStorage initial] in Hc.
      rewrite Hc in Hls. destruct Hls as (ms & E & F).
      apply map_eq_app_inv in E as (ma & -> & Hincl).
      rewrite map_map. apply Forall_forall. intros c Hin.
      apply in_map_iff in Hin as (m & <- & Hin).
      apply chat_copy. rewrite Forall_forall in F. apply F, Hincl, Hin.
  - unfold stored_chat. rewrite load_messages_key. exact Hls.
Qed.

Lemma step_chat (w : world) (e : event) :
  chat_world w -> chat_world (step w e).
Proof.
  intros [(rest & Hw & F) Hs].
  assert (Happ : forall w', appends chat_role w w' ->
            exists rest', messages w' = system_message :: rest'
                          /\ Forall chat_role rest').
  { intros w' (extra & H & Fe). exists (rest ++ extra).
    rewrite H, Hw. split; [reflexivity | apply Forall_app; auto]. }
  destruct e as [s | env | answer |]; cbn [step].
  - split; [exists rest; auto | exact Hs].
  - split.
    + apply Happ, submit_appends;
        [apply chat_user | apply chat_assistant | apply chat_untimed].
    + unfold stored_chat.
      destruct (submit_saved chat_role chat_user chat_assistant env w)
        as [-> | (extra & Fe & ->)]; [exact Hs|].
      rewrite Hw. cbn [app slice1 tl]. exists (rest ++ extra).
      split; [reflexivity | apply Forall_app; auto].
  - split.
    + apply Happ, editName_appends, chat_untimed.
    + unfold stored_chat. rewrite editName_messages_key. exact Hs.
  - rewrite clearConversation_eq. split.
    + exists []. cbn [messages]. rewrite Hw. auto.
    + exact I.
Qed.

Lemma run_chat (es : list event) (w : world) :
  chat_world w -> chat_world (run w es).
Proof.
  revert w; induction es as [|e es IH]; intros w H; [exact H|].
  apply IH, step_chat, H.
Qed.

Lemma left_behind_chat (ls : storage) : left_behind ls -> stored_chat ls.
Proof.
  induction 1 as [|ls display es _ IH]; [exact I|].
  apply (run_chat es (load ls display)), load_chat, IH.
Qed.

(** Across sessions chained from an empty storage, every entry stored under
    the messages key has the role [user] or [assistant]: no entry with the
    role [system] is ever stored. *)
Theorem stored_roles_are_chat_roles (ls : storage) (entries : list json) :
  left_behind ls ->
  loreal_messages ls = Some (Json (JArr entries)) ->
  Forall (fun e => read e "role" = str (lit "user")
                   \/ read e "role" = str (lit "assistant")) entries.
Proof.
  intros H E. apply left_behind_chat in H. unfold stored_chat in H.
  rewrite E in H. destruct H as (ms & -> & F).
  apply Forall_forall. intros e Hin.
  apply in_map_iff in Hin as (m & <- & Hin).
  destruct (read_message_json m) as (-> & _).
  rewrite Forall_forall in F. exact (F m Hin).
Qed.

Lemma stored_roles_are_chat_roles_witness :
  Forall (fun e => read e "role" = str (lit "user")
                   \/ read e "role" = str (lit "assistant"))
    (map message_json (snapshot after_hello)).
Proof.
  apply (stored_roles_are_chat_roles (localStorage after_hello)).
  - apply (left_session empty_storage (Some (lit "Guest"))
             [Typed (lit "Hello"); Submitted (turn_with Rejected)]).
    apply left_empty.
  - reflexivity.
Defined.

(* ------------------------------------------------------------------ *)
(** ** Reloading the page *)

Lemma load_snapshot (ls : storage) (display : option jsstring) :
  snapshot (load ls display) =
  snapshot (fst (restoreConversation (initial ls display))).
Proof.
  unfold snapshot, load.
  match goal with
  | |- context [match ?x with _ => _ end] => destruct x as [[|c s]|]
  end; rewrite ?setUserName_messages; reflexivity.
Qed.

(** A page loaded on a snapshot the script wrote gets the snapshot back,
    every message with its [time] or [null]. *)
Lemma reload_restores_snapshot
    (ls : storage) (display : option jsstring) (ms : list message) :
  ms <> [] ->
  loreal_messages ls = Some (Json (messages_json ms)) ->
  snapshot (load ls display) = map time_or_null ms.
Proof.
  intros Hne Hraw. rewrite load_snapshot.
  rewrite (restoreConversation_snapshot (initial ls display)
             (map message_json ms)).
  - cbn [snapshot initial messages slice1 tl app].
    rewrite map_map. apply map_ext. apply shallow_copy_message_json.
  - destruct ms; [congruence | discriminate].
  - apply Forall_forall. intros e Hin.
    apply in_map_iff in Hin as (m & <- & _). discriminate.
  - discriminate.
  - exact Hraw.
Qed.

(** A message that carries a truthy [time] comes back as it was. *)
Lemma time_or_null_timed (m : message) :
  truthy (time m) = true -> time_or_null m = m.
Proof. destruct m as [r c t]. unfold time_or_null; cbn. intros ->. reflexivity. Qed.

(* ------------------------------------------------------------------ *)
(** ** The scenarios of the specification *)

(** An off-topic question is refused without a remote call. *)
Example scenario_refusal :
  let w := submit (turn_with Rejected)
             (typing "What's the weather today?" fresh) in
  messages w =
    [system_message;
     user_message (lit "What's the weather today?") (turn_with Rejected);
     assistant_message (str refuse) (turn_with Rejected)] /\
  log w = [].
Proof. split; reflexivity. Qed.

(** A self-introduction with a product question: the name is found, the
    whole conversation is sent to the worker, the completion is appended and
    saved. *)
Example scenario_remote_reply :
  let env := turn_with (ok_reply (completion "Try this one.")) in
  let w := submit env (typing "My name is Alex, suggest a shampoo" fresh) in
  userName w = Some (lit "Alex") /\
  log w =
    [Called_sendToApi
       [system_message;
        user_message (lit "My name is Alex, suggest a shampoo") env];
     Fetched
       {| url := worker_address; bearer := None;
          body := JObj [(lit "messages",
                         messages_json
                           [system_message;
                            user_message
                              (lit "My name is Alex, suggest a shampoo")
                              env])] |}] /\
  messages w =
    [system_message;
     user_message (lit "My name is Alex, suggest a shampoo") env;
     assistant_message (str (lit "Try this one.")) env] /\
  loreal_messages (localStorage w) = Some (Json (messages_json (snapshot w))) /\
  chatWindow w =
    [{| node_role := User; is_loading := false;
        bubbles := [{| label := lit " ";
                       shown := str (lit "My name is Alex, suggest a shampoo")
                    |}] |};
     {| node_role := Ai; is_loading := false;
        bubbles := [{| label := advisor_label;
                       shown := str (lit "Try this one.") |}] |}].
Proof. cbv zeta. repeat apply conj; vm_compute; reflexivity. Qed.

(** The pattern takes the letters, apostrophes, hyphens and spaces after
    the phrase, up to the first other character. *)
Example nameMatch_examples :
  nameMatch (lit "Hi, I'm Mary-Jane O'Neil!") = Some (lit "Mary-Jane O'Neil") /\
  nameMatch (lit "this is a good cream") = Some (lit "a good cream") /\
  nameMatch (lit "Miami am I") = None /\
  nameMatch (lit "I AM   Bob") = Some (lit "Bob") /\
  nameMatch (lit "shampoo please") = None.
Proof. repeat apply conj; vm_compute; reflexivity. Qed.

(* ================================================================== *)
(** * Further properties of the script *)

(* ------------------------------------------------------------------ *)
(** ** More on strings *)

Lemma trimStart_idem (s : jsstring) : trimStart (trimStart s) = trimStart s.
Proof.
  induction s as [|c s IH]; [reflexivity|]. simpl.
  destruct (is_white_space c) eqn:E; [exact IH|]. simpl. rewrite E.
  reflexivity.
Qed.

Lemma trimStart_length (s : jsstring) :
  (List.length (trimStart s) <= List.length s)%nat.
Proof.
  induction s as [|c s IH]; simpl; [lia|].
  destruct (is_white_space c); simpl; lia.
Qed.

Lemma trimStart_fixed_head (c : N) (r : jsstring) :
  trimStart (c :: r) = c :: r -> is_white_space c = false.
Proof.
  simpl. destruct (is_white_space c); [|reflexivity].
  intros H. pose proof (trimStart_length r) as L. rewrite H in L.
  simpl in L. lia.
Qed.

Lemma trimStart_keeps_last (l : jsstring) (c : N) :
  is_white_space c = false -> exists p, trimStart (l ++ [c]) = p ++ [c].
Proof.
  intros Hc. induction l as [|d l IH]; simpl.
  - rewrite Hc. exists []; reflexivity.
  - destruct (is_white_space d); [exact IH|].
    exists (d :: l); reflexivity.
Qed.

Lemma trim_trimmed (s : jsstring) : trimmed (trim s).
Proof.
  unfold trimmed, trim, trimEnd. split.
  - pose proof (trimStart_idem s) as Hx.
    destruct (trimStart s) as [|c r] eqn:E; [reflexivity|].
    apply trimStart_fixed_head in Hx.
    simpl rev.
    destruct (trimStart_keeps_last (rev r) c Hx) as [p ->].
    rewrite rev_app_distr. simpl. rewrite Hx. reflexivity.
  - rewrite rev_involutive. apply trimStart_idem.
Qed.

Lemma trimmed_trim (s : jsstring) : trimmed s -> trim s = s.
Proof.
  intros [H1 H2]. unfold trim, trimEnd.
  rewrite H1, H2. apply rev_involutive.
Qed.

Lemma trim_idem (s : jsstring) : trim (trim s) = trim s.
Proof. apply trimmed_trim, trim_trimmed. Qed.




(* ------------------------------------------------------------------ *)
(** ** The topic classifier *)






(* ------------------------------------------------------------------ *)
(** ** The shape of a turn *)

Lemma record_input_userInput (text : jsstring) (env : turn) (w : world) :
  userInput (record_input text env w) = [].
Proof. unfold record_input. destruct (nameMatch text); reflexivity. Qed.

(** Whatever the path (greeting, refusal, failed call, reply), a turn on a
    non-blank input pushes the user message and then exactly one assistant
    message, logs the question, empties the input field, and leaves in the
    chat window the question and that one answer, without the
    placeholder. *)
Theorem turn_records_question_and_one_reply (env : turn) (w : world) :
  trim (userInput w) <> [] ->
  exists reply : message,
    role reply = str (lit "assistant") /\
    messages (submit env w) =
      messages w ++ [user_message (trim (userInput w)) env; reply] /\
    pastQuestions (submit env w) =
      pastQuestions w ++ [JStr (trim (userInput w))] /\
    userInput (submit env w) = [] /\
    chatWindow (submit env w) =
      [block User {| label := lit " ";
                     shown := str (trim (userInput w)) |};
       block Ai {| label := advisor_label; shown := content reply |}].
Proof.
  intros Hne. unfold submit; cbv zeta.
  destruct (trim (userInput w)) as [|c text] eqn:E; [congruence|].
  simpl not_text; cbv iota.
  turn_paths;
    [ exists (assistant_message (str greet) env)
    | exists (assistant_message (str refuse) env)
    | exists apology
    | match goal with
      | H : assistantText _ = Ok ?v |- _ => exists (assistant_message v env)
      end
    | exists apology ];
    fields;
    rewrite ?record_input_messages, ?record_input_pastQuestions,
      ?record_input_chatWindow, ?record_input_userInput, <- ?app_assoc;
    (split; [reflexivity|]); (split; [reflexivity|]);
    (split; [reflexivity|]); split; reflexivity.
Qed.

Lemma turn_records_question_and_one_reply_witness :
  exists reply : message,
    role reply = str (lit "assistant") /\
    messages (submit (turn_with server_error)
                (typing "  Which serum?  " fresh)) =
      [system_message;
       user_message (lit "Which serum?") (turn_with server_error); reply].
Proof.
  destruct (turn_records_question_and_one_reply (turn_with server_error)
              (typing "  Which serum?  " fresh))
    as (reply & Hr & Hm & _).
  - vm_compute; discriminate.
  - exists reply. split; [exact Hr | exact Hm].
Defined.

(* ------------------------------------------------------------------ *)
(** ** Remote calls *)


Lemma submit_log_to_worker (env : turn) (w : world) :
  hd_error (messages w) = Some system_message ->
  Forall to_worker (log w) ->
  Forall to_worker (log (submit env w)).
Proof.
  intros Hhd Hlog. unfold submit; cbv zeta.
  destruct (not_text (Some (trim (userInput w)))); [exact Hlog|].
  assert (Hcall :
    Forall to_worker
      (log w ++
       Called_sendToApi
         (messages w ++ [user_message (trim (userInput w)) env])
       :: map Fetched
            (fst (via_worker worker_address env
                    (messages w
                     ++ [user_message (trim (userInput w)) env]))))).
  { apply Forall_app. split; [exact Hlog|].
    constructor.
    - cbn [to_worker]. destruct (messages w); [discriminate | exact Hhd].
    - repeat constructor. }
  turn_paths; fields;
    rewrite ?record_input_log, ?record_input_messages;
    exact Hlog || exact Hcall.
Qed.

Lemma setUserName_log (name : option jsstring) (w : world) :
  log (setUserName name w) = log w.
Proof.
  unfold setUserName. destruct name as [[|c s]|]; try reflexivity.
  destruct (trim (c :: s)); reflexivity.
Qed.

Lemma restoreConversation_log (w : world) :
  log (fst (restoreConversation w)) = log w.
Proof.
  unfold restoreConversation.
  destruct (loreal_messages (localStorage w)) as [[| |v]|]; try reflexivity.
  destruct v as [| | | |[|m arr]|]; try reflexivity.
  destruct (restore_entries (m :: arr) (messages w)) as [msgs ok].
  destruct ok; [|reflexivity].
  cbn [localStorage set_messages].
  destruct (loreal_pastQuestions (localStorage w)) as [[| |q]|];
    try reflexivity.
  destruct q; reflexivity.
Qed.

Lemma load_log (ls : storage) (display : option jsstring) :
  log (load ls display) = [].
Proof.
  unfold load.
  match goal with
  | |- context [match ?x with _ => _ end] => destruct x as [[|c s]|]
  end; rewrite ?setUserName_log; fields; apply restoreConversation_log.
Qed.

Lemma editName_log (answer : option jsstring) (w : world) :
  log (editName answer w) = log w.
Proof.
  destruct answer as [name|]; [|reflexivity]. unfold editName.
  destruct name as [|c name]; [apply setUserName_log|].
  destruct (trim (c :: name)); [apply setUserName_log|].
  fields. apply setUserName_log.
Qed.

(** In every state of a session, every fetch made so far went to the worker
    address and carried no credential, and every call of [sendToApi] got a
    conversation that starts with the system message. *)
Theorem remote_effects_stay_with_worker (w : world) :
  reachable w -> Forall to_worker (log w).
Proof.
  intros H. pose proof (reachable_system_first w H) as Hinv. revert Hinv.
  induction H as [ls display | w e Hw IH]; intros Hinv.
  - rewrite load_log. constructor.
  - specialize (IH (reachable_system_first w Hw)).
    destruct e as [s | env | answer |]; cbn [step].
    + exact IH.
    + apply submit_log_to_worker; [|exact IH].
      destruct (reachable_system_first w Hw) as (rest & -> & _). reflexivity.
    + rewrite editName_log. exact IH.
    + rewrite clearConversation_eq. exact IH.
Qed.

(** A session with one failed remote turn. *)
Lemma reachable_after_failed_turn :
  reachable (submit (turn_with server_error)
               (typing "Recommend a moisturizer for dry skin" fresh)).
Proof.
  apply (reach_step _ (Submitted (turn_with server_error))).
  apply (reach_step _ (Typed (lit "Recommend a moisturizer for dry skin"))).
  apply reach_load.
Qed.

Lemma remote_effects_stay_with_worker_witness :
  Forall to_worker
    (log (submit (turn_with server_error)
            (typing "Recommend a moisturizer for dry skin" fresh))) /\
  List.length
    (log (submit (turn_with server_error)
            (typing "Recommend a moisturizer for dry skin" fresh))) = 2%nat.
Proof.
  split; [|reflexivity].
  exact (remote_effects_stay_with_worker _ reachable_after_failed_turn).
Defined.

(* ------------------------------------------------------------------ *)
(** ** The refusal and the reply *)





(* ------------------------------------------------------------------ *)
(** ** The response and the call *)


(** [sendToApi] resolves exactly when the worker answers with a status from
    200 to 299 and a JSON body, to that body; a status outside that range is
    thrown as an error that carries the status and the body text. *)
Theorem sendToApi_outcome (env : turn) (messagesArray : list message) :
  (forall data,
     snd (sendToApi env messagesArray) = inr data <->
     exists status text,
       network env (worker_request messagesArray)
         = Responded status text (Some data)
       /\ (200 <= status <= 299)%Z) /\
  (forall status text,
     snd (sendToApi env messagesArray) = inl (WorkerStatus status text) <->
     exists parsed,
       network env (worker_request messagesArray)
         = Responded status text parsed
       /\ ~ (200 <= status <= 299)%Z).
Proof.
  change (sendToApi env messagesArray)
    with (via_worker worker_address env messagesArray).
  unfold via_worker; cbn [snd].
  change {| url := worker_address; bearer := None;
            body := JObj [(lit "messages", messages_json messagesArray)] |}
    with (worker_request messagesArray).
  assert (Hok : forall status,
            resp_ok status = true <-> (200 <= status <= 299)%Z).
  { intros status. unfold resp_ok.
    rewrite andb_true_iff, !Z.leb_le. reflexivity. }
  destruct (network env (worker_request messagesArray))
    as [|status text parsed].
  - split.
    + intros data. split; [discriminate | intros (s & t & H & _); discriminate].
    + intros s t. split; [discriminate | intros (p & H & _); discriminate].
  - destruct (resp_ok status) eqn:E; cbn [negb].
    + pose proof (proj1 (Hok status) E) as R. split.
      * intros data. destruct parsed as [d|]; split.
        -- intros H; injection H as <-. eauto.
        -- intros (s & t & H & _). injection H as _ _ ->. reflexivity.
        -- discriminate.
        -- intros (s & t & H & _). discriminate.
      * intros s t. split.
        -- destruct parsed; discriminate.
        -- intros (p & H & N). injection H as <- _ _. contradiction.
    + assert (R : ~ (200 <= status <= 299)%Z).
      { intros R. apply Hok in R. congruence. }
      split.
      * intros data. split; [discriminate|].
        intros (s & t & H & R'). injection H as <- _ _. contradiction.
      * intros s t. split.
        -- intros H; injection H as <- <-. eauto.
        -- intros (p & H & _). injection H as -> -> _. reflexivity.
Qed.

Lemma sendToApi_outcome_witness :
  snd (sendToApi (turn_with server_error) [system_message]) =
    inl (WorkerStatus 500 (lit "Internal Server Error")).
Proof.
  apply (proj2 (sendToApi_outcome (turn_with server_error) [system_message])).
  exists None. split; [reflexivity | lia].
Defined.

(* ------------------------------------------------------------------ *)
(** ** The user name *)

Lemma trim_keeps_letter_head (c : N) (rest : jsstring) :
  is_white_space c = false -> exists r, trim (c :: rest) = c :: r.
Proof.
  intros Hc. unfold trim, trimEnd. simpl trimStart. rewrite Hc.
  simpl rev. destruct (trimStart_keeps_last (rev rest) c Hc) as [p ->].
  rewrite rev_app_distr. simpl. eauto.
Qed.

(** After [setUserName], a name under the storage key is never empty, has
    no white space at either end, is the trimmed argument, and is also the
    value of [userName] and the text of the name element; without such a
    name the key is removed, the element shows Guest, and [userName] is
    [null] or the empty string. The saved conversation is not touched. *)
Theorem setUserName_stores_trimmed_name
    (name : option jsstring) (w : world) :
  match loreal_userName (localStorage (setUserName name w)) with
  | Some u =>
      u <> [] /\ trimmed u /\
      (exists n, name = Some n /\ u = trim n) /\
      userName (setUserName name w) = Some u /\
      userNameDisplay (setUserName name w)
        = option_map (fun _ => u) (userNameDisplay w)
  | None =>
      (userName (setUserName name w) = None
       \/ userName (setUserName name w) = Some []) /\
      userNameDisplay (setUserName name w)
        = option_map (fun _ => lit "Guest") (userNameDisplay w)
  end /\
  loreal_messages (localStorage (setUserName name w))
    = loreal_messages (localStorage w) /\
  loreal_pastQuestions (localStorage (setUserName name w))
    = loreal_pastQuestions (localStorage w).
Proof.
  unfold setUserName. destruct name as [[|c s]|].
  - cbn. auto.
  - destruct (trim (c :: s)) as [|d t] eqn:E.
    + cbn. auto.
    + cbn. split; [|auto].
      split; [discriminate|]. split; [rewrite <- E; apply trim_trimmed|].
      split; [exists (c :: s); auto|]. auto.
  - cbn. auto.
Qed.

Lemma load_localStorage (ls : storage) (display : option jsstring) :
  localStorage (load ls display) =
  match loreal_userName ls with
  | Some ((_ :: _) as storedName) =>
      match trim storedName with
      | [] => removeItem_userName ls
      | _ :: _ => setItem_userName (trim storedName) ls
      end
  | _ => ls
  end.
Proof.
  unfold load. cbv zeta.
  assert (E : forall w', localStorage w' = ls ->
     localStorage
       match loreal_userName (localStorage w') with
       | Some ((_ :: _) as storedName) => setUserName (Some storedName) w'
       | _ => w'
       end =
     match loreal_userName ls with
     | Some ((_ :: _) as storedName) =>
         match trim storedName with
         | [] => removeItem_userName ls
         | _ :: _ => setItem_userName (trim storedName) ls
         end
     | _ => ls
     end).
  { intros w' Hw'. rewrite Hw'.
    destruct (loreal_userName ls) as [[|c s]|]; try exact Hw'.
    unfold setUserName. destruct (trim (c :: s)); cbn; rewrite Hw';
      reflexivity. }
  apply E. fields. apply restoreConversation_localStorage.
Qed.

(** Loading the page never alters the saved conversation or the saved
    question log; of the storage it can only rewrite the name key, with the
    trimmed stored name, or remove it when the stored name is white space
    only. *)
Theorem load_keeps_saved_conversation
    (ls : storage) (display : option jsstring) :
  loreal_messages (localStorage (load ls display)) = loreal_messages ls /\
  loreal_pastQuestions (localStorage (load ls display))
    = loreal_pastQuestions ls /\
  loreal_userName (localStorage (load ls display)) =
    match loreal_userName ls with
    | Some [] => Some []
    | Some storedName =>
        match trim storedName with
        | [] => None
        | u => Some u
        end
    | None => None
    end.
Proof.
  rewrite load_localStorage.
  destruct (loreal_userName ls) as [[|c s]|] eqn:E.
  - rewrite E. auto.
  - destruct (trim (c :: s)); cbn; auto.
  - rewrite E. auto.
Qed.

Lemma load_userName (ls : storage) (display : option jsstring) :
  userName (load ls display) =
  match loreal_userName ls with
  | Some ((_ :: _) as storedName) => Some (trim storedName)
  | _ => None
  end.
Proof.
  unfold load. cbv zeta.
  assert (E : forall w', localStorage w' = ls -> userName w' = None ->
     userName
       match loreal_userName (localStorage w') with
       | Some ((_ :: _) as storedName) => setUserName (Some storedName) w'
       | _ => w'
       end =
     match loreal_userName ls with
     | Some ((_ :: _) as storedName) => Some (trim storedName)
     | _ => None
     end).
  { intros w' Hw' Hn. rewrite Hw'.
    destruct (loreal_userName ls) as [[|c s]|]; try exact Hn.
    unfold setUserName. destruct (trim (c :: s)); reflexivity. }
  apply E; fields.
  - apply restoreConversation_localStorage.
  - unfold restoreConversation.
    destruct (loreal_messages (localStorage (initial ls display)))
      as [[| |v]|]; try reflexivity.
    destruct v as [| | | |[|m arr]|]; try reflexivity.
    destruct (restore_entries (m :: arr) (messages (initial ls display)))
      as [msgs ok].
    destruct ok; [|reflexivity].
    cbn [localStorage set_messages].
    destruct (loreal_pastQuestions (localStorage (initial ls display)))
      as [[| |q]|]; try reflexivity.
    destruct q; reflexivity.
Qed.

(** A name stored by [setUserName] comes back on the next load of the page:
    the variable [userName] and the storage key hold the trimmed name. *)
Theorem stored_name_survives_reload
    (n : jsstring) (w : world) (display : option jsstring) :
  trim n <> [] ->
  userName (load (localStorage (setUserName (Some n) w)) display)
    = Some (trim n) /\
  loreal_userName
    (localStorage (load (localStorage (setUserName (Some n) w)) display))
    = Some (trim n).
Proof.
  intros Hne.
  assert (Hls : loreal_userName (localStorage (setUserName (Some n) w))
                = Some (trim n)).
  { unfold setUserName.
    destruct n as [|c s]; [exfalso; apply Hne; reflexivity|].
    destruct (trim (c :: s)); [congruence | reflexivity]. }
  rewrite load_userName, load_localStorage, Hls.
  pose proof (trim_idem n) as T.
  destruct (trim n) as [|d t] eqn:E; [congruence|].
  cbv iota. rewrite T. split; reflexivity.
Qed.

Lemma stored_name_survives_reload_witness :
  userName (load (localStorage (setUserName (Some (lit " Ann ")) fresh)) None)
    = Some (lit "Ann").
Proof.
  destruct (stored_name_survives_reload (lit " Ann ") fresh None) as (H & _).
  - vm_compute; discriminate.
  - exact H.
Defined.

(** The edit-name button. A cancelled prompt changes nothing. A name that is
    not blank is stored trimmed and a welcome is pushed to the conversation,
    without a [time] and without a save: the stored snapshot is the one
    from before. A blank name removes the stored name and pushes nothing. *)
Theorem editName_greets_without_saving
    (answer : option jsstring) (w : world) :
  loreal_messages (localStorage (editName answer w))
    = loreal_messages (localStorage w) /\
  match answer with
  | None => editName answer w = w
  | Some name =>
      match trim name with
      | [] =>
          messages (editName answer w) = messages w /\
          loreal_userName (localStorage (editName answer w)) = None
      | _ :: _ =>
          messages (editName answer w) =
            messages w ++
            [{| role := str (lit "assistant");
                content := str (name_greeting (trim name));
                time := None |}] /\
          userName (editName answer w) = Some (trim name) /\
          loreal_userName (localStorage (editName answer w))
            = Some (trim name)
      end
  end.
Proof.
  split; [apply editName_messages_key|].
  destruct answer as [name|]; [|reflexivity].
  unfold editName, setUserName.
  destruct name as [|c name]; [split; reflexivity|].
  destruct (trim (c :: name)) as [|d t] eqn:E; repeat split; reflexivity.
Qed.

(* ------------------------------------------------------------------ *)
(** ** Saving and reloading *)

Lemma restoreConversation_all (w : world) (arr : list json) :
  arr <> [] ->
  Forall (fun m => m <> JNull) arr ->
  loreal_messages (localStorage w) = Some (Json (JArr arr)) ->
  fst (restoreConversation w) =
  match loreal_pastQuestions (localStorage w) with
  | Some (Json (JArr pqa)) =>
      set_pastQuestions (pastQuestions w ++ pqa)
        (set_messages (messages w ++ map shallow_copy arr) w)
  | _ => set_messages (messages w ++ map shallow_copy arr) w
  end.
Proof.
  intros Hne Hnull Hraw. unfold restoreConversation. rewrite Hraw.
  destruct arr as [|m arr]; [congruence|].
  rewrite (restore_entries_all _ _ Hnull).
  cbn [localStorage set_messages pastQuestions].
  destruct (loreal_pastQuestions (localStorage w)) as [[| |q]|];
    try reflexivity.
  destruct q; reflexivity.
Qed.

Lemma setUserName_pastQuestions (name : option jsstring) (w : world) :
  pastQuestions (setUserName name w) = pastQuestions w.
Proof.
  unfold setUserName. destruct name as [[|c s]|]; try reflexivity.
  destruct (trim (c :: s)); reflexivity.
Qed.

Lemma load_restored (ls : storage) (display : option jsstring) :
  messages (load ls display) =
    messages (fst (restoreConversation (initial ls display))) /\
  pastQuestions (load ls display) =
    pastQuestions (fst (restoreConversation (initial ls display))).
Proof.
  unfold load.
  match goal with
  | |- context [match ?x with _ => _ end] => destruct x as [[|c s]|]
  end; rewrite ?setUserName_messages, ?setUserName_pastQuestions;
    split; reflexivity.
Qed.

Lemma restoreConversation_questions (w : world) :
  pastQuestions (fst (restoreConversation w)) = pastQuestions w \/
  exists m rest,
    messages (fst (restoreConversation w)) = messages w ++ m :: rest.
Proof.
  unfold restoreConversation.
  destruct (loreal_messages (localStorage w)) as [[| |v]|];
    try (left; reflexivity).
  destruct v as [| | | |[|m arr]|]; try (left; reflexivity).
  destruct (restore_entries_prefix (m :: arr) (messages w))
    as (copied & skipped & H0 & H1 & H2).
  destruct (restore_entries (m :: arr) (messages w)) as [msgs ok].
  cbn [fst snd] in H1, H2. subst msgs.
  destruct ok; [|left; reflexivity].
  right. rewrite (H2 eq_refl), app_nil_r in H0. subst copied.
  exists (shallow_copy m), (map shallow_copy arr).
  cbn [localStorage set_messages].
  destruct (loreal_pastQuestions (localStorage w)) as [[| |q]|];
    try reflexivity.
  destruct q; reflexivity.
Qed.

Lemma submit_messages (env : turn) (w : world) :
  (messages (submit env w) = messages w /\
   pastQuestions (submit env w) = pastQuestions w) \/
  exists reply,
    messages (submit env w) =
    messages w ++ [user_message (trim (userInput w)) env; reply].
Proof.
  unfold submit; cbv zeta.
  destruct (not_text (Some (trim (userInput w))));
    [left; split; reflexivity|].
  right.
  turn_paths; eexists; fields;
    rewrite ?record_input_messages, <- ?app_assoc; reflexivity.
Qed.

Lemma editName_pastQuestions (answer : option jsstring) (w : world) :
  pastQuestions (editName answer w) = pastQuestions w.
Proof.
  destruct answer as [name|]; [|reflexivity]. unfold editName.
  destruct name as [|c name]; [apply setUserName_pastQuestions|].
  destruct (trim (c :: name)); [apply setUserName_pastQuestions|].
  fields. apply setUserName_pastQuestions.
Qed.

(** In every state of a session, a question log that is not empty comes
    with a snapshot that is not empty. *)
Lemma reachable_questions (w : world) :
  reachable w -> pastQuestions w = [] \/ snapshot w <> [].
Proof.
  intros H. pose proof (reachable_system_first w H) as Hs. revert Hs.
  induction H as [ls display | w e Hw IH]; intros Hs.
  - destruct (load_restored ls display) as (Hm & Hq).
    unfold snapshot. rewrite Hm, Hq.
    destruct (restoreConversation_questions (initial ls display))
      as [-> | (m & rest & ->)]; [left; reflexivity|].
    right. discriminate.
  - pose proof (reachable_system_first w Hw) as (rest & Hrest & _).
    specialize (IH (reachable_system_first w Hw)).
    unfold snapshot in *. rewrite Hrest in IH. cbn [slice1 tl] in IH.
    destruct e as [s | env | answer |]; cbn [step].
    + cbn [pastQuestions messages set_userInput]. rewrite Hrest. exact IH.
    + destruct (submit_messages env w) as [[-> ->] | (reply & ->)].
      * rewrite Hrest. exact IH.
      * right. rewrite Hrest. cbn [app slice1 tl].
        destruct rest; discriminate.
    + rewrite editName_pastQuestions.
      destruct (editName_appends (fun _ => True) (fun _ => I) answer w)
        as (extra & -> & _).
      rewrite Hrest. cbn [app slice1 tl].
      destruct IH as [IH | IH]; [left; exact IH|].
      right. destruct rest; [congruence | discriminate].
    + rewrite clearConversation_eq. left; reflexivity.
Qed.

Lemma time_or_null_idem (m : message) :
  time_or_null (time_or_null m) = time_or_null m.
Proof.
  unfold time_or_null; cbn [role content time].
  destruct (truthy (time m)) eqn:E; [rewrite E|]; reflexivity.
Qed.

Lemma save_reload (w : world) (display : option jsstring) :
  reachable w ->
  messages (load (localStorage (saveConversation w)) display) =
    system_message :: map time_or_null (snapshot w) /\
  pastQuestions (load (localStorage (saveConversation w)) display) =
    pastQuestions w.
Proof.
  intros H.
  destruct (load_restored (localStorage (saveConversation w)) display)
    as (-> & ->).
  destruct (snapshot w) as [|m rest] eqn:E.
  - destruct (reachable_questions w H) as [Hq | Hq]; [|congruence].
    rewrite Hq. unfold restoreConversation, saveConversation.
    cbn [localStorage set_localStorage initial loreal_messages
         setItem_messages setItem_pastQuestions].
    rewrite E. split; reflexivity.
  - rewrite (restoreConversation_all _ (map message_json (m :: rest))).
    + unfold saveConversation.
      cbn [localStorage set_localStorage initial loreal_pastQuestions
           setItem_messages setItem_pastQuestions messages pastQuestions
           set_messages set_pastQuestions app].
      rewrite map_map. split; [|reflexivity].
      f_equal. apply map_ext. apply shallow_copy_message_json.
    + discriminate.
    + apply Forall_forall. intros e Hin.
      apply in_map_iff in Hin as (x & <- & _). discriminate.
    + unfold saveConversation.
      cbn [localStorage set_localStorage initial loreal_messages
           setItem_messages setItem_pastQuestions].
      rewrite E. reflexivity.
Qed.



(** A second save and reload changes nothing more: after one reload the
    conversation and the question log are stable under saving and
    reloading. *)
Theorem reload_is_idempotent
    (w : world) (d1 d2 : option jsstring) :
  reachable w ->
  messages
    (load (localStorage
             (saveConversation
                (load (localStorage (saveConversation w)) d1))) d2) =
    messages (load (localStorage (saveConversation w)) d1) /\
  pastQuestions
    (load (localStorage
             (saveConversation
                (load (localStorage (saveConversation w)) d1))) d2) =
    pastQuestions (load (localStorage (saveConversation w)) d1).
Proof.
  intros H.
  destruct (save_reload w d1 H) as (Hm & Hq).
  destruct (save_reload (load (localStorage (saveConversation w)) d1) d2
              (reach_load _ _)) as (Hm2 & Hq2).
  split; [|exact Hq2].
  rewrite Hm2. unfold snapshot at 1. rewrite Hm. cbn [slice1 tl].
  rewrite map_map. f_equal. apply map_ext. apply time_or_null_idem.
Qed.

Lemma reload_is_idempotent_witness :
  messages
    (load (localStorage
             (saveConversation
                (load (localStorage (saveConversation after_hello)) None)))
       None) =
    messages (load (localStorage (saveConversation after_hello)) None).
Proof.
  exact (proj1 (reload_is_idempotent after_hello None None
                  reachable_after_hello)).
Defined.

(* ------------------------------------------------------------------ *)
(** ** The name the pattern captures *)

Lemma letter_not_white_space (c : N) :
  is_ascii_letter c = true -> is_white_space c = false.
Proof.
  intros H. destruct (is_white_space c) eqn:W; [exfalso|reflexivity].
  unfold is_ascii_letter in H.
  rewrite orb_true_iff, !andb_true_iff, !N.leb_le in H.
  unfold is_white_space in W. cbn [existsb] in W.
  rewrite !orb_true_iff, andb_true_iff, !N.eqb_eq, !N.leb_le in W.
  lia.
Qed.

Lemma match_literal_suffix (p s r : jsstring) :
  match_literal p s = Some r -> exists x, s = x ++ r.
Proof.
  revert s; induction p as [|a p IH]; intros s H.
  - destruct s; injection H as <-; exists []; reflexivity.
  - destruct s as [|b s]; [discriminate|]. cbn [match_literal] in H.
    destruct (canonicalize a =? canonicalize b); [|discriminate].
    destruct (IH s H) as [x ->]. exists (b :: x); reflexivity.
Qed.

Lemma trimStart_suffix (s : jsstring) : exists x, s = x ++ trimStart s.
Proof.
  induction s as [|c s [x IH]]; [exists []; reflexivity|]. simpl.
  destruct (is_white_space c).
  - exists (c :: x). simpl. rewrite <- IH. reflexivity.
  - exists []; reflexivity.
Qed.

Lemma take_upto_spec (n : nat) (f : N -> bool) (s : jsstring) :
  (exists y, s = take_upto n f s ++ y) /\
  forallb f (take_upto n f s) = true /\
  (List.length (take_upto n f s) <= n)%nat.
Proof.
  revert s; induction n as [|n IH]; intros s.
  - simpl. split; [exists s; reflexivity|]. split; [reflexivity | lia].
  - destruct s as [|c s]; cbn [take_upto].
    + split; [exists []; reflexivity|]. split; [reflexivity | simpl; lia].
    + destruct (f c) eqn:E.
      * destruct (IH s) as ((y & Hy) & Hf & Hl).
        split; [exists y; simpl; rewrite <- Hy; reflexivity|].
        split; [simpl; rewrite E, Hf; reflexivity | simpl; lia].
      * split; [exists (c :: s); reflexivity|].
        split; [reflexivity | simpl; lia].
Qed.

Lemma match_phrase_shape (s p cap : jsstring) :
  match_phrase s p = Some cap ->
  exists c rest before after,
    cap = c :: rest /\ is_ascii_letter c = true /\
    forallb is_name_char rest = true /\
    (List.length rest <= 40)%nat /\
    s = before ++ cap ++ after.
Proof.
  unfold match_phrase.
  destruct (match_literal p s) as [r|] eqn:E1; [|discriminate].
  destruct (match_spaces r) as [r'|] eqn:E2; [|discriminate].
  intros E3.
  apply match_literal_suffix in E1 as [x ->].
  assert (H2 : exists y, r = y ++ r').
  { unfold match_spaces in E2. destruct r as [|c r]; [discriminate|].
    destruct (is_white_space c); [|discriminate].
    injection E2 as <-. destruct (trimStart_suffix r) as [y Hy].
    exists (c :: y). simpl. rewrite <- Hy. reflexivity. }
  destruct H2 as [y ->].
  unfold match_capture in E3. destruct r' as [|c r']; [discriminate|].
  destruct (is_ascii_letter c) eqn:L; [|discriminate].
  destruct (take_upto_spec 40 is_name_char r') as ((z & Hz) & Hf & Hl).
  remember (take_upto 40 is_name_char r') as taken eqn:T.
  assert (Hcap : cap = c :: taken) by congruence.
  exists c, taken, (x ++ y), z.
  split; [exact Hcap|]. split; [exact L|]. split; [exact Hf|].
  split; [exact Hl|].
  rewrite Hcap, <- !app_assoc. cbn [app]. rewrite <- Hz. reflexivity.
Qed.

Lemma first_match_phrase (s cap : jsstring) (ps : list jsstring) :
  first_match s ps = Some cap -> exists p, match_phrase s p = Some cap.
Proof.
  induction ps as [|p ps IH]; [discriminate|]. cbn [first_match].
  destruct (match_phrase s p) as [c|] eqn:E; [|exact IH].
  intros H; injection H as <-. eauto.
Qed.

Lemma scan_position (before : bool) (s cap : jsstring) :
  scan before s = Some cap ->
  exists pre rest,
    s = pre ++ rest /\ first_match rest intro_phrases = Some cap.
Proof.
  revert before; induction s as [|c s IH]; intros before H.
  - cbn [scan] in H.
    destruct (xorb before (head_is_word [])).
    + destruct (first_match [] intro_phrases) eqn:E; [|discriminate].
      injection H as <-. exists [], []. auto.
    + discriminate.
  - cbn [scan] in H.
    destruct (if xorb before (head_is_word (c :: s))
              then first_match (c :: s) intro_phrases else None)
      as [found|] eqn:E.
    + injection H as <-.
      destruct (xorb before (head_is_word (c :: s))); [|discriminate].
      exists [], (c :: s). auto.
    + destruct (IH _ H) as (pre & rest & -> & Hm).
      exists (c :: pre), rest. auto.
Qed.

(** A name the pattern captures starts with an ASCII letter, goes on with
    at most forty letters, apostrophes, hyphens and spaces, is a part of the
    text, and is not blank: trimming it leaves a name that starts with that
    letter. *)
Theorem nameMatch_captures_a_name (text captured : jsstring) :
  nameMatch text = Some captured ->
  exists c rest,
    captured = c :: rest /\
    is_ascii_letter c = true /\
    forallb is_name_char rest = true /\
    (List.length captured <= 41)%nat /\
    (exists before after, text = before ++ captured ++ after) /\
    (exists r, trim captured = c :: r).
Proof.
  intros H. apply scan_position in H as (pre & s & -> & H).
  apply first_match_phrase in H as [p H].
  apply match_phrase_shape in H
    as (c & rest & before & after & -> & Hc & Hf & Hl & ->).
  exists c, rest. split; [reflexivity|]. split; [exact Hc|].
  split; [exact Hf|]. split; [simpl; lia|]. split.
  - exists (pre ++ before), after. rewrite <- app_assoc. reflexivity.
  - apply trim_keeps_letter_head, letter_not_white_space, Hc.
Qed.

Lemma nameMatch_captures_a_name_witness :
  exists c rest,
    lit "Alex" = c :: rest /\ is_ascii_letter c = true.
Proof.
  destruct (nameMatch_captures_a_name
              (lit "My name is Alex, suggest a shampoo") (lit "Alex"))
    as (c & rest & E & Hc & _).
  - vm_compute; reflexivity.
  - exists c, rest. split; [exact E | exact Hc].
Defined.

(* ------------------------------------------------------------------ *)
(** ** White space around the input *)

(** White space typed before and after a question makes no difference to
    the turn: the state after the submit is the one the trimmed question
    gives. *)
Theorem surrounding_white_space_is_ignored
    (env : turn) (s : jsstring) (w : world) :
  trim s <> [] ->
  submit env (set_userInput s w) = submit env (set_userInput (trim s) w).
Proof.
  intros Hne. unfold submit; cbv zeta.
  cbn [userInput set_userInput]. rewrite trim_idem.
  destruct (trim s) as [|c t] eqn:E; [congruence|].
  simpl not_text; cbv iota. reflexivity.
Qed.

Lemma surrounding_white_space_is_ignored_witness :
  submit (turn_with Rejected) (typing "  Hello " fresh) =
  submit (turn_with Rejected) (set_userInput (trim (lit "  Hello ")) fresh).
Proof.
  apply (surrounding_white_space_is_ignored (turn_with Rejected)
           (lit "  Hello ") fresh).
  vm_compute; discriminate.
Defined.

(* ------------------------------------------------------------------ *)
(** ** The chat window *)

Lemma ui_role_eqb_eq (a b : ui_role) : ui_role_eqb a b = true <-> a = b.
Proof. destruct a, b; simpl; split; congruence. Qed.

Lemma transcript_app (a b : list node) :
  transcript (a ++ b) = transcript a ++ transcript b.
Proof. unfold transcript. rewrite map_app, concat_app. reflexivity. Qed.

Lemma alternating_snoc (l : list node) (a b : node) :
  alternating (l ++ [a]) ->
  node_role a <> node_role b ->
  alternating (l ++ [a; b]).
Proof.
  intros H Hab. induction l as [|x l IH].
  - simpl. auto.
  - cbn [app alternating] in H |- *. destruct H as [Hx Hl].
    split; [|apply IH; exact Hl].
    destruct l as [|y l]; exact Hx.
Qed.

Lemma alternating_last_role (l : list node) (a a' : node) :
  alternating (l ++ [a]) ->
  node_role a' = node_role a ->
  alternating (l ++ [a']).
Proof.
  intros H E. induction l as [|x l IH].
  - simpl. auto.
  - cbn [app alternating] in H |- *. destruct H as [Hx Hl].
    split; [|apply IH; exact Hl].
    destruct l as [|y l]; [|exact Hx].
    cbn [app] in Hx |- *. rewrite E. exact Hx.
Qed.

(** [renderMessage] puts the new bubble at the end of the transcript and
    keeps every earlier bubble in place; it adds at most one block, and a
    window whose neighbouring blocks have different roles stays so. *)
Theorem renderMessage_appends_bubble
    (r : ui_role) (b : bubble) (cw : list node) :
  transcript (renderMessage r b cw) = transcript cw ++ [b] /\
  (List.length (renderMessage r b cw) <= List.length cw + 1)%nat /\
  (alternating cw -> alternating (renderMessage r b cw)).
Proof.
  unfold renderMessage.
  destruct (rev cw) as [|last before] eqn:E.
  - apply (f_equal (@rev node)) in E. rewrite rev_involutive in E.
    subst cw. simpl. auto.
  - apply (f_equal (@rev node)) in E. rewrite rev_involutive in E.
    simpl in E. subst cw.
    destruct (ui_role_eqb (node_role last) r) eqn:R.
    + split; [|split].
      * rewrite !transcript_app. unfold transcript; simpl.
        rewrite !app_nil_r, app_assoc. reflexivity.
      * rewrite !length_app. simpl. lia.
      * intros H. apply (alternating_last_role _ last); [exact H|].
        reflexivity.
    + split; [|split].
      * rewrite !transcript_app. unfold transcript at 3; simpl.
        reflexivity.
      * rewrite !length_app. simpl. lia.
      * intros H. rewrite <- app_assoc. apply alternating_snoc; [exact H|].
        cbn [node_role]. intros Heq. apply ui_role_eqb_eq in Heq.
        congruence.
Qed.

Lemma renderMessage_appends_bubble_witness :
  alternating
    (renderMessage Ai {| label := advisor_label; shown := str greet |}
       (chatWindow after_hello)).
Proof.
  apply (proj2 (proj2 (renderMessage_appends_bubble Ai
           {| label := advisor_label; shown := str greet |}
           (chatWindow after_hello)))).
  vm_compute. repeat split; discriminate.
Defined.


Lemma restoreConversation_chatWindow (w : world) :
  chatWindow (fst (restoreConversation w)) = chatWindow w.
Proof.
  unfold restoreConversation.
  destruct (loreal_messages (localStorage w)) as [[| |v]|]; try reflexivity.
  destruct v as [| | | |[|m arr]|]; try reflexivity.
  destruct (restore_entries (m :: arr) (messages w)) as [msgs ok].
  destruct ok; [|reflexivity].
  cbn [localStorage set_messages].
  destruct (loreal_pastQuestions (localStorage w)) as [[| |q]|];
    try reflexivity.
  destruct q; reflexivity.
Qed.






(* ------------------------------------------------------------------ *)
(** ** The conversation only grows *)


(** After a reset, loading the page again is loading it on an empty
    storage: the conversation is the system message alone, there is no user
    name and no question log, whatever the session was before the reset. *)
Theorem reset_then_reload_is_fresh (w : world) (display : option jsstring) :
  load (localStorage (clearConversation w)) display
    = load empty_storage display /\
  messages (load empty_storage display) = [system_message] /\
  userName (load empty_storage display) = None /\
  pastQuestions (load empty_storage display) = [] /\
  localStorage (load empty_storage display) = empty_storage.
Proof.
  rewrite clearConversation_eq. cbn [localStorage].
  repeat split; reflexivity.
Qed.

Lemma restore_stops_at_null_witness :
  restoreConversation
    (page_holding (malformed_snapshot ++ JNull :: malformed_snapshot)) =
  (set_messages
     ([system_message] ++ map shallow_copy malformed_snapshot)
     (page_holding (malformed_snapshot ++ JNull :: malformed_snapshot)),
   false).
Proof.
  apply (restore_stops_at_null
           (page_holding (malformed_snapshot ++ JNull :: malformed_snapshot))
           malformed_snapshot malformed_snapshot).
  - repeat constructor; discriminate.
  - reflexivity.
Defined.
